(** * Yeast-cell detection: post-processing and small-cell enhancement

    A shallow embedding of
    - [celldetection/detect.py]: [nms] and [post_process];
    - [celldetection/enhance/small_cell.py]: [enhance_small_cells];
    - [celldetection/enhance/clahe.py] and [enhance.py]: [apply_clahe],
      [adaptive_clahe], [enhance_image].

    Numbers.  Box coordinates, scores and thresholds are finite numbers,
    modelled as rationals [Q] with exact arithmetic (rounding of the
    floating-point format is outside the model).  The one operation of the
    code that leaves the finite numbers is the division of [nms]; its result
    is an [npfloat], which adds the IEEE special values a NumPy division by
    zero produces.

    Library calls.  OpenCV, [torch.sigmoid] and [ndarray.argsort] are not
    code of the repository: they are parameters of the sections below, with
    the facts about them that are used stated as hypotheses. *)

From Stdlib Require Import String.
From Stdlib Require Import List Arith ZArith QArith Qround Qminmax Qabs Lia Lqa Bool.
From Stdlib Require Import Permutation Sorted SetoidList Morphisms.
From Equations Require Import Equations.
Import ListNotations.

Set Implicit Arguments.

(** ** Exceptions *)

Inductive result (A : Type) : Type :=
| Ok (a : A)
| IndexError
| ValueError
| OutOfFuel.
Arguments Ok {A} a.
Arguments IndexError {A}.
Arguments ValueError {A}.
Arguments OutOfFuel {A}.

Definition bind {A B} (r : result A) (k : A -> result B) : result B :=
  match r with
  | Ok a => k a
  | IndexError => IndexError
  | ValueError => ValueError
  | OutOfFuel => OutOfFuel
  end.

Declare Scope result_scope.
Delimit Scope result_scope with result.
Notation "x <- r ;; k" := (bind r (fun x => k))
  (at level 61, r at next level, right associativity) : result_scope.
Open Scope result_scope.

(** ** NumPy helpers *)

Module Np.

(** [a[i]] for a non-negative index. *)
Definition getitem {A} (a : list A) (i : nat) : result A :=
  match nth_error a i with
  | Some v => Ok v
  | None => IndexError
  end.

(** [a[idx]] for an array of indices. *)
Fixpoint take {A} (a : list A) (idx : list nat) : result (list A) :=
  match idx with
  | [] => Ok []
  | i :: idx' =>
      v <- getitem a i ;;
      vs <- take a idx' ;;
      Ok (v :: vs)
  end.

(** Element-wise binary operation on two arrays of one length. *)
Fixpoint zip_with {A B C} (f : A -> B -> C) (a : list A) (b : list B) : list C :=
  match a, b with
  | x :: a', y :: b' => f x y :: zip_with f a' b'
  | _, _ => []
  end.

(** [np.where(mask)[0]]: the positions at which [mask] holds, from [k]. *)
Fixpoint where_from (k : nat) (mask : list bool) : list nat :=
  match mask with
  | [] => []
  | b :: mask' =>
      if b then k :: where_from (S k) mask' else where_from (S k) mask'
  end.

Definition where_ (mask : list bool) : list nat := where_from 0 mask.

(** [a[mask]] for a boolean mask. *)
Fixpoint compress {A} (mask : list bool) (a : list A) : list A :=
  match mask, a with
  | b :: mask', x :: a' =>
      if b then x :: compress mask' a' else compress mask' a'
  | _, _ => []
  end.

(** [np.argmax]: the first position of the largest entry ([0] on ties with
    the first entry, as NumPy returns the first maximum). *)
Fixpoint argmax_from (k best : nat) (bestv : Q) (a : list Q) : nat :=
  match a with
  | [] => best
  | v :: a' =>
      if Qle_bool v bestv then argmax_from (S k) best bestv a'
      else argmax_from (S k) k v a'
  end.

Definition argmax (a : list Q) : nat :=
  match a with
  | [] => 0%nat
  | v :: a' => argmax_from 1 0 v a'
  end.

End Np.

(** ** Floating-point values of a division *)

Inductive npfloat : Type :=
| Fin (q : Q)
| PInf
| NInf
| NaN.

(** [a / b] on arrays of floats: a zero divisor gives [nan] for [0/0] and a
    signed infinity otherwise (NumPy warns, it does not raise). *)
Definition np_div (a b : Q) : npfloat :=
  if Qeq_bool b 0 then
    if Qeq_bool a 0 then NaN
    else if Qle_bool 0 a then PInf else NInf
  else Fin (a / b).

(** [v <= t]: false whenever [v] is [nan]. *)
Definition np_le (v : npfloat) (t : Q) : bool :=
  match v with
  | Fin q => Qle_bool q t
  | PInf => false
  | NInf => true
  | NaN => false
  end.

(** [v > t], as a proposition: false whenever [v] is [nan]. *)
Definition np_gt (v : npfloat) (t : Q) : Prop :=
  match v with
  | Fin q => t < q
  | PInf => True
  | NInf => False
  | NaN => False
  end.

(** Equality of values up to the representation of the rational. *)
Definition np_eq (v w : npfloat) : Prop :=
  match v, w with
  | Fin p, Fin q => p == q
  | PInf, PInf => True
  | NInf, NInf => True
  | NaN, NaN => True
  | _, _ => False
  end.

(** ** Boxes *)

(** A row of the [N x 4] array [boxes]: columns [0..3]. *)
Record Box : Type := mkBox { bx1 : Q; by1 : Q; bx2 : Q; by2 : Q }.

Definition box0 : Box := mkBox 0 0 0 0.

(** [areas = (x2 - x1) * (y2 - y1)], one row. *)
Definition area (b : Box) : Q := (bx2 b - bx1 b) * (by2 b - by1 b).

(** Lines 161-171 of [nms] for one pair: the clamped overlap. *)
Definition inter_area (a b : Box) : Q :=
  let xx1 := Qmax (bx1 a) (bx1 b) in
  let yy1 := Qmax (by1 a) (by1 b) in
  let xx2 := Qmin (bx2 a) (bx2 b) in
  let yy2 := Qmin (by2 a) (by2 b) in
  let w := Qmax 0 (xx2 - xx1) in
  let h := Qmax 0 (yy2 - yy1) in
  w * h.

(** The divisor of line 174 for one pair. *)
Definition iou_denominator (a b : Box) : Q :=
  area a + area b - inter_area a b.

(** Line 174 for one pair. *)
Definition iou (a b : Box) : npfloat :=
  np_div (inter_area a b) (iou_denominator a b).

(** Two boxes that do not overlap: one lies entirely to one side of the
    other along an axis. *)
Definition separated (a b : Box) : Prop :=
  bx2 a <= bx1 b \/ bx2 b <= bx1 a \/ by2 a <= by1 b \/ by2 b <= by1 a.

(** ** [nms] *)

Definition score_at (scores : list Q) (i : nat) : Q := nth i scores 0.

Section NMS.

(** [scores.argsort()]: indices that sort [scores] ascending.  NumPy's
    default sort does not fix the order of equal scores, so it stays a
    parameter; what every sort guarantees is assumed where it is used. *)
Variable argsort : list Q -> list nat.

Section Loop.

Variables x1 y1 x2 y2 areas : list Q.
Variable iou_threshold : Q.

(** One pass of the [while] body after [keep.append(i)]: the new [order]. *)
Definition nms_step (order : list nat) (i : nat) (rest : list nat)
  : result (list nat) :=
  x1i <- Np.getitem x1 i ;; x1r <- Np.take x1 rest ;;
  let xx1 := map (Qmax x1i) x1r in
  y1i <- Np.getitem y1 i ;; y1r <- Np.take y1 rest ;;
  let yy1 := map (Qmax y1i) y1r in
  x2i <- Np.getitem x2 i ;; x2r <- Np.take x2 rest ;;
  let xx2 := map (Qmin x2i) x2r in
  y2i <- Np.getitem y2 i ;; y2r <- Np.take y2 rest ;;
  let yy2 := map (Qmin y2i) y2r in
  let w := map (Qmax 0) (Np.zip_with Qminus xx2 xx1) in
  let h := map (Qmax 0) (Np.zip_with Qminus yy2 yy1) in
  let inter := Np.zip_with Qmult w h in
  ai <- Np.getitem areas i ;; ar <- Np.take areas rest ;;
  let iou :=
    Np.zip_with np_div inter (Np.zip_with Qminus (map (Qplus ai) ar) inter) in
  let inds := Np.where_ (map (fun v => np_le v iou_threshold) iou) in
  Np.take order (map S inds).

(** The [while order.size > 0] loop; [fuel] bounds the number of passes. *)
Fixpoint nms_loop (fuel : nat) (order keep : list nat) : result (list nat) :=
  match order with
  | [] => Ok keep
  | i :: rest =>
      match fuel with
      | O => OutOfFuel
      | S fuel' =>
          order' <- nms_step order i rest ;;
          nms_loop fuel' order' (keep ++ [i])
      end
  end.

End Loop.

Definition nms (boxes : list Box) (scores : list Q) (iou_threshold : Q)
  : result (list nat) :=
  if (length boxes =? 0)%nat then Ok []
  else
    let x1 := map bx1 boxes in
    let y1 := map by1 boxes in
    let x2 := map bx2 boxes in
    let y2 := map by2 boxes in
    let areas :=
      Np.zip_with Qmult (Np.zip_with Qminus x2 x1) (Np.zip_with Qminus y2 y1) in
    let order := rev (argsort scores) in
    nms_loop x1 y1 x2 y2 areas iou_threshold (length order) order [].

End NMS.

(** What one pass retains of the remaining boxes: [iou <= iou_threshold]
    holds, so the quotient is a number and is at most the threshold. *)
Definition survives (boxes : list Box) (iou_threshold : Q) (i j : nat) : bool :=
  np_le (iou (nth i boxes box0) (nth j boxes box0)) iou_threshold.

(** The greedy algorithm as section 4.3 of the specification words it: take
    the first (highest-scoring) remaining index, keep it, drop the remaining
    boxes it suppresses, and recurse on what is left. *)
Equations? greedy_nms (boxes : list Box) (iou_threshold : Q) (order : list nat)
  : list nat by wf (length order) lt :=
  greedy_nms boxes iou_threshold [] := [];
  greedy_nms boxes iou_threshold (i :: rest) :=
    i :: greedy_nms boxes iou_threshold
           (filter (survives boxes iou_threshold i) rest).
Proof.
  simpl. apply Nat.lt_succ_r. apply filter_length_le.
Qed.

(** A stable insertion sort on indices, one instance of [argsort]. *)
Fixpoint insert_index (scores : list Q) (i : nat) (sorted : list nat) : list nat :=
  match sorted with
  | [] => [i]
  | j :: sorted' =>
      if Qle_bool (score_at scores j) (score_at scores i)
      then j :: insert_index scores i sorted'
      else i :: sorted
  end.

Definition argsort_insertion (scores : list Q) : list nat :=
  fold_left (fun sorted i => insert_index scores i sorted)
    (seq 0 (length scores)) [].

(** What every sort guarantees of [argsort]: the indices [0..N-1], each
    once, in ascending order of score. *)
Definition argsort_permutes (argsort : list Q -> list nat) : Prop :=
  forall scores, Permutation (argsort scores) (seq 0 (length scores)).

Definition argsort_ascending (argsort : list Q -> list nat) : Prop :=
  forall scores,
    StronglySorted (fun i j => score_at scores i <= score_at scores j)
      (argsort scores).

(** ** [post_process] *)

(** The prediction tensor, shape [M x ncols]. *)
Record Tensor : Type := mkTensor { ncols : nat; rows : list (list Q) }.

Definition tensor_wf (t : Tensor) : Prop :=
  Forall (fun r => length r = ncols t) (rows t).

(** [prediction[:, 0:4]], one row. *)
Definition row_box (r : list Q) : Box :=
  mkBox (nth 0 r 0) (nth 1 r 0) (nth 2 r 0) (nth 3 r 0).

Section PostProcess.

Variable argsort : list Q -> list nat.
(** [torch.sigmoid] on one entry. *)
Variable sigmoid : Q -> Q.

(** [torch.sigmoid(prediction[:, 4])], one row. *)
Definition confidence (r : list Q) : Q := sigmoid (nth 4 r 0).

(** [mask = scores > threshold]. *)
Definition score_mask (prediction : Tensor) (threshold : Q) : list bool :=
  map (fun r => negb (Qle_bool (confidence r) threshold)) (rows prediction).

(** Lines 100-106: the rows that pass the threshold. *)
Definition filtered_rows (prediction : Tensor) (threshold : Q) : list (list Q) :=
  Np.compress (score_mask prediction threshold) (rows prediction).

Definition post_process (prediction : Tensor) (threshold : Q)
  : result (list Box * list Q * list nat) :=
  let boxes := map row_box (rows prediction) in
  if (ncols prediction <=? 4)%nat then IndexError
  else
    let scores := map confidence (rows prediction) in
    let mask := map (fun s => negb (Qle_bool s threshold)) scores in
    let filtered_boxes := Np.compress mask boxes in
    let filtered_scores := Np.compress mask scores in
    let filtered_class_ids :=
      if (5 <? ncols prediction)%nat then
        let class_scores := map (skipn 5) (rows prediction) in
        map Np.argmax (Np.compress mask class_scores)
      else repeat 0%nat (length filtered_boxes) in
    keep_indices <- nms argsort filtered_boxes filtered_scores (1 # 2) ;;
    fb <- Np.take filtered_boxes keep_indices ;;
    fs <- Np.take filtered_scores keep_indices ;;
    fc <- Np.take filtered_class_ids keep_indices ;;
    Ok (fb, fs, fc).

End PostProcess.

(** A rational stand-in for the logistic function, exact at [0]. *)
Definition sigmoid_rational (x : Q) : Q :=
  (1 # 2) + x / (2 * (1 + Qabs x)).

(** ** Images *)

(** A single-channel [uint8] array, [H x W]. *)
Definition gray : Type := list (list Z).
(** A colour array, [H x W x C]. *)
Definition image : Type := list (list (list Z)).

(** Statistics row of [cv2.connectedComponentsWithStats]. *)
Record CCStats : Type := mkStats
  { cc_left : Z; cc_top : Z; cc_width : Z; cc_height : Z; cc_area : Z }.

Fixpoint list_eqb {A} (eqb : A -> A -> bool) (a b : list A) : bool :=
  match a, b with
  | [], [] => true
  | x :: a', y :: b' => eqb x y && list_eqb eqb a' b'
  | _, _ => false
  end.

Definition same_shape2 {A B} (a : list (list A)) (b : list (list B)) : bool :=
  list_eqb Nat.eqb (map (@length A) a) (map (@length B) b).

Definition same_shape3 {A B} (a : list (list (list A))) (b : list (list (list B)))
  : bool :=
  list_eqb (list_eqb Nat.eqb)
    (map (map (@length A)) a) (map (map (@length B)) b).

(** [np.zeros_like]. *)
Definition zeros_like (g : gray) : gray := map (map (fun _ => 0%Z)) g.

(** [a[labels == i] = v]. *)
Definition mask_assign (a : gray) (labels : list (list Z)) (i v : Z)
  : result gray :=
  if same_shape2 a labels then
    Ok (Np.zip_with
          (Np.zip_with (fun x l => if (l =? i)%Z then v else x)) a labels)
  else IndexError.

(** [cv2.bitwise_or] of two masks; OpenCV rejects operands of different
    sizes. *)
Definition bitwise_or (a b : gray) : result gray :=
  if same_shape2 a b then Ok (Np.zip_with (Np.zip_with Z.lor) a b)
  else ValueError.

(** [a[lo:hi]] and [a[lo:hi] = v] along one axis. *)
Definition slice {A} (lo hi : nat) (a : list A) : list A :=
  firstn (hi - lo) (skipn lo a).

Definition splice {A} (lo hi : nat) (a v : list A) : list A :=
  firstn lo a ++ v ++ skipn (lo + (hi - lo)) a.

(** [img[y0:y1, x0:x1]]. *)
Definition slice2 {A} (y0 y1 x0 x1 : nat) (a : list (list A)) : list (list A) :=
  map (slice x0 x1) (slice y0 y1 a).

(** [img[y0:y1, x0:x1] = v]: NumPy raises [ValueError] when [v] does not
    have the shape of the slice (a value that would broadcast is not
    produced by any caller). *)
Definition set_slice2 (y0 y1 x0 x1 : nat) (a v : image) : result image :=
  if same_shape3 (slice2 y0 y1 x0 x1 a) v then
    Ok (splice y0 y1 a (Np.zip_with (splice x0 x1) (slice y0 y1 a) v))
  else ValueError.

(** [img[y, x]]. *)
Definition pixel {A} (a : list (list A)) (y x : nat) : option A :=
  match nth_error a y with
  | Some r => nth_error r x
  | None => None
  end.

(** [np.where(mask > 0)]: the coordinates [(y, x)] of the non-zero entries,
    row by row. *)
Fixpoint nonzero_row (y x : nat) (r : list Z) : list (nat * nat) :=
  match r with
  | [] => []
  | v :: r' =>
      if (0 <? v)%Z then (y, x) :: nonzero_row y (S x) r'
      else nonzero_row y (S x) r'
  end.

Fixpoint nonzero_from (y : nat) (m : gray) : list (nat * nat) :=
  match m with
  | [] => []
  | r :: m' => nonzero_row y 0 r ++ nonzero_from (S y) m'
  end.

Definition nonzero (m : gray) : list (nat * nat) := nonzero_from 0 m.

(** [np.min] and [np.max] of a non-empty index array. *)
Definition np_min (l : list nat) : nat :=
  match l with
  | [] => 0%nat
  | a :: l' => fold_left Nat.min l' a
  end.

Definition np_max (l : list nat) : nat :=
  match l with
  | [] => 0%nat
  | a :: l' => fold_left Nat.max l' a
  end.

(** [l, a, b = cv2.split(img)]: the unpacking needs exactly three channels. *)
Definition channel (k : nat) (img : image) : gray :=
  map (map (fun p => nth k p 0%Z)) img.

Definition split3 (img : image) : result (gray * gray * gray) :=
  if forallb (forallb (fun p => (length p =? 3)%nat)) img then
    Ok (channel 0 img, channel 1 img, channel 2 img)
  else ValueError.

(** [cv2.merge([l, a, b])]; OpenCV rejects planes of different sizes. *)
Definition merge3 (l a b : gray) : result image :=
  if same_shape2 l a && same_shape2 l b then
    Ok (Np.zip_with
          (fun rl rab => Np.zip_with (fun x ab => [x; fst ab; snd ab]) rl rab)
          l (Np.zip_with (@combine Z Z) a b))
  else ValueError.

(** [img[:, :, i]] and [img[:, :, i] = v]. *)
Definition get_channel (i : nat) (img : image) : result gray :=
  if forallb (forallb (fun p => (i <? length p)%nat)) img then
    Ok (channel i img)
  else IndexError.

Definition set_channel (i : nat) (img : image) (v : gray) : result image :=
  if forallb (forallb (fun p => (i <? length p)%nat)) img then
    if same_shape2 img v then
      Ok (Np.zip_with
            (Np.zip_with (fun p x => firstn i p ++ x :: skipn (S i) p)) img v)
    else ValueError
  else IndexError.

(** Python's [int(x)] on a float: truncation toward zero. *)
Definition py_int (q : Q) : Z := Z.quot (Qnum q) (Z.pos (Qden q)).

(** A [for] loop over indices with a state. *)
Fixpoint for_each {S} (body : S -> nat -> result S) (s : S) (idx : list nat)
  : result S :=
  match idx with
  | [] => Ok s
  | i :: idx' => s' <- body s i ;; for_each body s' idx'
  end.

(** ** Library and absent-module interface of the enhancement code *)

(** The OpenCV and NumPy calls of [enhance/*.py], with the arguments the code
    passes that are not fixed flags.  The last two fields are repository
    functions whose modules are not among the sources. *)
Record Cv2 : Type := mkCv2
  { cvtColor_RGB2GRAY : image -> gray;
    cvtColor_RGB2LAB : image -> image;
    cvtColor_LAB2RGB : image -> image;
    (** [adaptiveThreshold(src, maxValue, GAUSSIAN_C, BINARY_INV, blockSize, C)] *)
    adaptiveThreshold : gray -> Z -> Z -> Z -> gray;
    (** [(num_labels, labels, stats)]; the centroids are never read. *)
    connectedComponentsWithStats : gray -> nat * list (list Z) * list CCStats;
    (** [dilate(src, np.ones(shape), iterations=1)] *)
    dilate : gray -> nat * nat -> gray;
    Canny : gray -> Z -> Z -> gray;
    (** [GaussianBlur(src, ksize, 0)] *)
    GaussianBlur : gray -> nat * nat -> gray;
    (** [createCLAHE(clipLimit, tileGridSize).apply(src)] *)
    clahe_apply : Q -> nat * nat -> gray -> gray;
    (** [filter2D(src, -1, kernel)] *)
    filter2D : gray -> list (list Z) -> gray;
    convertScaleAbs : image -> Q -> Q -> image;
    (** [fastNlMeansDenoisingColored(src, None, h, hColor, template, search)] *)
    fastNlMeansDenoisingColored : image -> Z -> Z -> Z -> Z -> image;
    np_std : gray -> Q;
    (** Modelled from the spec: [enhance_microscopy_image] of the absent
        module [enhance/adaptive.py]; section 4.1 gives it as
        [adaptive_enhance(image) -> image]. *)
    enhance_microscopy_image : image -> image;
    (** Modelled from the spec: [guided_filter] of the absent module
        [enhance/guided_filter.py], called on one channel as guide and
        source with a radius and a regularisation. *)
    guided_filter : gray -> gray -> Z -> Q -> gray }.

(** ** [enhance_small_cells] *)

Section SmallCell.

Variable cv : Cv2.

(** Line 28: [int(min_dim * cell_size_threshold)]. *)
Definition cell_pixel_threshold (h w : nat) (cell_size_threshold : Q) : Z :=
  let min_dim := Nat.min h w in
  py_int (inject_Z (Z.of_nat min_dim) * cell_size_threshold).

(** Line 48: [max(width, height) < cell_pixel_threshold]. *)
Definition is_small (cell_pixel_threshold : Z) (st : CCStats) : bool :=
  (Z.max (cc_width st) (cc_height st) <? cell_pixel_threshold)%Z.

(** Lines 44-62: one pass of the loop over the labels. *)
Definition small_cells_body (g : gray) (labels : list (list Z))
    (stats : list CCStats) (threshold : Z) (small_cells_mask : gray) (i : nat)
  : result gray :=
  st <- Np.getitem stats i ;;
  if is_small threshold st then
    component_mask <- mask_assign (zeros_like g) labels (Z.of_nat i) 255 ;;
    let dilated_mask := dilate cv component_mask (3, 3)%nat in
    bitwise_or small_cells_mask dilated_mask
  else Ok small_cells_mask.

(** Lines 24-70: [combined_mask]. *)
Definition accumulator_mask (img : image) (cell_size_threshold : Q)
  : result gray :=
  let h := length img in
  let w := length (hd [] img) in
  let threshold := cell_pixel_threshold h w cell_size_threshold in
  let g := cvtColor_RGB2GRAY cv img in
  let binary := adaptiveThreshold cv g 255 11 2 in
  let '(num_labels, labels, stats) := connectedComponentsWithStats cv binary in
  small_cells_mask <-
    for_each (small_cells_body g labels stats threshold) (zeros_like g)
      (seq 1 (num_labels - 1)) ;;
  let edges := Canny cv g 50 150 in
  let edges := dilate cv edges (2, 2)%nat in
  combined_mask <- bitwise_or small_cells_mask edges ;;
  Ok (GaussianBlur cv combined_mask (3, 3)%nat).

Definition sharpen_kernel : list (list Z) :=
  [[-1; -1; -1]; [-1; 9; -1]; [-1; -1; -1]]%Z.

(** Lines 87-100: the enhancement of the region of interest. *)
Definition enhance_roi (roi : image) : result image :=
  let roi_lab := cvtColor_RGB2LAB cv roi in
  lab <- split3 roi_lab ;;
  let '(l, a, b) := lab in
  let l_enhanced := clahe_apply cv 3 (3, 3)%nat l in
  let l_enhanced := filter2D cv l_enhanced sharpen_kernel in
  roi_lab_enhanced <- merge3 l_enhanced a b ;;
  Ok (cvtColor_LAB2RGB cv roi_lab_enhanced).

(** Lines 76-80: [(min_y, max_y, min_x, max_x)] of the non-zero entries. *)
Definition mask_rect (combined_mask : gray) : nat * nat * nat * nat :=
  let mask_regions := nonzero combined_mask in
  let ys := map fst mask_regions in
  let xs := map snd mask_regions in
  (np_min ys, np_max ys, np_min xs, np_max xs).

Definition enhance_small_cells (img : image) (cell_size_threshold : Q)
  : result image :=
  combined_mask <- accumulator_mask img cell_size_threshold ;;
  let enhanced_img := img in
  let mask_regions := nonzero combined_mask in
  if (0 <? length mask_regions)%nat then
    let '(min_y, max_y, min_x, max_x) := mask_rect combined_mask in
    if (min_y <? max_y)%nat && (min_x <? max_x)%nat then
      let roi := slice2 min_y (max_y + 1) min_x (max_x + 1) enhanced_img in
      roi_enhanced <- enhance_roi roi ;;
      set_slice2 min_y (max_y + 1) min_x (max_x + 1) enhanced_img roi_enhanced
    else Ok enhanced_img
  else Ok enhanced_img.

End SmallCell.

(** ** [clahe.py] and [enhance_image] *)

Section Enhance.

Variable cv : Cv2.

Definition apply_clahe (img : image) (clip_limit : Q)
    (tile_grid_size : nat * nat) : result image :=
  let lab := cvtColor_RGB2LAB cv img in
  planes <- split3 lab ;;
  let '(l, a, b) := planes in
  let l := clahe_apply cv clip_limit tile_grid_size l in
  lab <- merge3 l a b ;;
  Ok (cvtColor_LAB2RGB cv lab).

(** A colour array has three axes, so the grey conversion of line 60 is the
    branch taken. *)
Definition adaptive_clahe (img : image) (low_contrast_threshold : Q)
    (min_clip_limit max_clip_limit : Q) : result image :=
  let g := cvtColor_RGB2GRAY cv img in
  let std := np_std cv g in
  let clip_limit :=
    Qmax min_clip_limit (Qmin max_clip_limit (5 - std / 50)) in
  let grid_size :=
    if negb (Qle_bool low_contrast_threshold std) (* std < threshold *)
    then (4, 4)%nat else (8, 8)%nat in
  apply_clahe img clip_limit grid_size.

(** The keys [enhance_image] reads from [params]; [None] is an absent key. *)
Record Params : Type := mkParams
  { clip_limit_ : option Q;
    tile_grid_size_ : option (nat * nat);
    low_contrast_threshold_ : option Q;
    min_clip_limit_ : option Q;
    max_clip_limit_ : option Q;
    radius_ : option Z;
    eps_ : option Q;
    alpha_ : option Q;
    beta_ : option Q;
    cell_size_threshold_ : option Q }.

Definition no_params : Params :=
  mkParams None None None None None None None None None None.

(** [params.get(key, default)]. *)
Definition get {A} (v : option A) (default : A) : A :=
  match v with
  | Some x => x
  | None => default
  end.

(** Line 72, one channel. *)
Definition guided_channel (radius : Z) (eps : Q) (enhanced : image) (i : nat)
  : result image :=
  c <- get_channel i enhanced ;;
  set_channel i enhanced (guided_filter cv c c radius eps).

(** [enhance_image] on an array ([image] is not a path). *)
Definition enhance_image (img : image) (method : String.string)
    (small_cell_enhancement : bool) (denoise_level : Z)
    (params : option Params) : result image :=
  let params := get params no_params in
  enhanced <-
    (if String.eqb method "adaptive"%string then
       Ok (enhance_microscopy_image cv img)
     else if String.eqb method "clahe"%string then
       apply_clahe img (get (clip_limit_ params) 2)
         (get (tile_grid_size_ params) (8, 8)%nat)
     else if String.eqb method "adaptive_clahe"%string then
       adaptive_clahe img (get (low_contrast_threshold_ params) 30)
         (get (min_clip_limit_ params) 1) (get (max_clip_limit_ params) 4)
     else if String.eqb method "guided"%string then
       for_each
         (guided_channel (get (radius_ params) 2%Z) (get (eps_ params) (2 # 10)))
         img (seq 0 3)
     else if String.eqb method "basic"%string then
       Ok (convertScaleAbs cv img (get (alpha_ params) (12 # 10))
             (get (beta_ params) 10))
     else ValueError) ;;
  enhanced <-
    (if small_cell_enhancement then
       enhance_small_cells cv enhanced
         (get (cell_size_threshold_ params) (5 # 1000))
     else Ok enhanced) ;;
  if (0 <? denoise_level)%Z then
    Ok (fastNlMeansDenoisingColored cv enhanced denoise_level denoise_level 7 21)
  else Ok enhanced.

End Enhance.

(** ** Shapes

    An [H x W] array has [H] rows of [W] entries; an [H x W x C] array has
    [C] channels at every entry. *)

Definition gray_shape (h w : nat) (g : gray) : Prop :=
  map (@length Z) g = repeat w h.

Definition image_shape (h w c : nat) (img : image) : Prop :=
  map (map (@length Z)) img = repeat (repeat c w) h.

(** What the enhancement code relies on: every library call returns an
    array of the shape of its input (the grey conversion drops the channel
    axis), and the statistics have one row per label. *)
Record Cv2Shapes (cv : Cv2) : Prop := mkCv2Shapes
  { gray_of_rgb : forall h w img,
      image_shape h w 3 img -> gray_shape h w (cvtColor_RGB2GRAY cv img);
    lab_of_rgb : forall h w img,
      image_shape h w 3 img -> image_shape h w 3 (cvtColor_RGB2LAB cv img);
    rgb_of_lab : forall h w img,
      image_shape h w 3 img -> image_shape h w 3 (cvtColor_LAB2RGB cv img);
    threshold_shape : forall h w g maxv block c,
      gray_shape h w g -> gray_shape h w (adaptiveThreshold cv g maxv block c);
    components_shape : forall h w g,
      gray_shape h w g ->
      gray_shape h w (snd (fst (connectedComponentsWithStats cv g)))
      /\ length (snd (connectedComponentsWithStats cv g))
         = fst (fst (connectedComponentsWithStats cv g));
    dilate_shape : forall h w g k,
      gray_shape h w g -> gray_shape h w (dilate cv g k);
    canny_shape : forall h w g lo hi,
      gray_shape h w g -> gray_shape h w (Canny cv g lo hi);
    blur_shape : forall h w g k,
      gray_shape h w g -> gray_shape h w (GaussianBlur cv g k);
    clahe_shape : forall h w g clip grid,
      gray_shape h w g -> gray_shape h w (clahe_apply cv clip grid g);
    filter_shape : forall h w g k,
      gray_shape h w g -> gray_shape h w (filter2D cv g k);
    scale_shape : forall h w img alpha beta,
      image_shape h w 3 img ->
      image_shape h w 3 (convertScaleAbs cv img alpha beta);
    denoise_shape : forall h w img a b c d,
      image_shape h w 3 img ->
      image_shape h w 3 (fastNlMeansDenoisingColored cv img a b c d);
    adaptive_shape : forall h w img,
      image_shape h w 3 img ->
      image_shape h w 3 (enhance_microscopy_image cv img);
    guided_shape : forall h w g radius eps,
      gray_shape h w g -> gray_shape h w (guided_filter cv g g radius eps) }.

(** ** A small instance of the library interface

    Simple total functions with the shapes of the OpenCV calls, used to run
    the model on concrete arrays. *)

Module Toy.

Definition threshold_inv (g : gray) (maxv block c : Z) : gray :=
  map (map (fun v => if (v <? 128 - c)%Z then maxv else 0%Z)) g.

(** All foreground as one component, with its bounding statistics. *)
Definition components (g : gray) : nat * list (list Z) * list CCStats :=
  let labels := map (map (fun v => if (0 <? v)%Z then 1%Z else 0%Z)) g in
  let '(min_y, max_y, min_x, max_x) := mask_rect g in
  let fg := Z.of_nat (length (nonzero g)) in
  let whole :=
    mkStats 0 0 (Z.of_nat (length (hd [] g))) (Z.of_nat (length g)) 0 in
  if (0 <? fg)%Z then
    (2%nat, labels,
     [whole;
      mkStats (Z.of_nat min_x) (Z.of_nat min_y)
        (Z.of_nat (max_x - min_x + 1)) (Z.of_nat (max_y - min_y + 1)) fg])
  else (1%nat, labels, [whole]).

Definition edges (g : gray) (lo hi : Z) : gray :=
  map (map (fun v => if (hi <? v)%Z then 255%Z else 0%Z)) g.

Definition brighten (clip : Q) (grid : nat * nat) (g : gray) : gray :=
  map (map (fun v => Z.min 255 (v + 16))) g.

Definition cv : Cv2 :=
  {| cvtColor_RGB2GRAY := channel 0;
     cvtColor_RGB2LAB := fun img => img;
     cvtColor_LAB2RGB := fun img => img;
     adaptiveThreshold := threshold_inv;
     connectedComponentsWithStats := components;
     dilate := fun g _ => g;
     Canny := edges;
     GaussianBlur := fun g _ => g;
     clahe_apply := brighten;
     filter2D := fun g _ => g;
     convertScaleAbs := fun img _ _ => img;
     fastNlMeansDenoisingColored := fun img _ _ _ _ => img;
     np_std := fun _ => 0;
     enhance_microscopy_image := fun img => img;
     guided_filter := fun g _ _ _ => g |}.

(** Grey pixels and three 3 x 3 images: a bright blob of three pixels, a
    bright segment within one row, and a dark image. *)
Definition px (v : Z) : list Z := [v; v; v].

Definition img_blob : image :=
  [[px 0; px 0; px 0]; [px 0; px 200; px 210]; [px 0; px 220; px 0]].

Definition img_row : image :=
  [[px 0; px 0; px 0]; [px 0; px 200; px 210]; [px 0; px 0; px 0]].

Definition img_dark : image :=
  [[px 0; px 0; px 0]; [px 0; px 0; px 0]; [px 0; px 0; px 0]].

End Toy.

(** ** [draw_predictions] *)

(** The palette of lines 212-218. *)
Definition colors : list (Z * Z * Z) :=
  [(0, 255, 0); (255, 0, 0); (0, 0, 255); (255, 255, 0); (255, 0, 255)]%Z.

(** Python's [a[i]] on a list: a negative index counts from the end. *)
Definition py_getitem {A} (a : list A) (i : Z) : result A :=
  if (0 <=? i)%Z then Np.getitem a (Z.to_nat i)
  else if (- Z.of_nat (length a) <=? i)%Z then
    Np.getitem a (Z.to_nat (Z.of_nat (length a) + i))
  else IndexError.

(** Line 229: the colour of a class. *)
Definition pick_color (class_id : Z) : result (Z * Z * Z) :=
  if (class_id <? Z.of_nat (length colors) - 1)%Z
  then py_getitem colors (class_id + 1)
  else py_getitem colors 0.

(** The arguments of the [cv2.rectangle] call of line 232. *)
Record Rectangle : Type := mkRectangle
  { rx1 : Z; ry1 : Z; rx2 : Z; ry2 : Z; rcolor : Z * Z * Z }.

(** Lines 222-229 for one detection. *)
Definition box_rectangle (height width : nat) (box : Box) (class_id : Z)
  : result Rectangle :=
  let x1 := py_int (bx1 box * inject_Z (Z.of_nat width)) in
  let y1 := py_int (by1 box * inject_Z (Z.of_nat height)) in
  let x2 := py_int (bx2 box * inject_Z (Z.of_nat width)) in
  let y2 := py_int (by2 box * inject_Z (Z.of_nat height)) in
  color <- pick_color class_id ;;
  Ok (mkRectangle x1 y1 x2 y2 color).

(** ** The parameters [adaptive_clahe] derives *)

(** Line 69 of [clahe.py]. *)
Definition adaptive_clip_limit (std min_clip_limit max_clip_limit : Q) : Q :=
  Qmax min_clip_limit (Qmin max_clip_limit (5 - std / 50)).

(** Line 72 of [clahe.py]. *)
Definition adaptive_grid_size (std low_contrast_threshold : Q) : nat * nat :=
  if negb (Qle_bool low_contrast_threshold std) then (4, 4)%nat
  else (8, 8)%nat.

(** A box with [x1 <= x2] and [y1 <= y2], and one of positive width and
    height. *)
Definition well_formed (b : Box) : Prop := bx1 b <= bx2 b /\ by1 b <= by2 b.

Definition positive_extent (b : Box) : Prop := bx1 b < bx2 b /\ by1 b < by2 b.

(** The class-id array of lines 109-113 for the rows that pass. *)
Definition class_ids_of (ncols_ : nat) (passed : list (list Q)) : list nat :=
  if (5 <? ncols_)%nat then map Np.argmax (map (skipn 5) passed)
  else repeat 0%nat (length passed).

(** * Properties *)

(** ** Arrays *)

Lemma getitem_nth {A} (a : list A) (i : nat) (d : A) :
  (i < length a)%nat -> Np.getitem a i = Ok (nth i a d).
Proof.
  intros Hi. unfold Np.getitem.
  rewrite (nth_error_nth' a d Hi). reflexivity.
Qed.

Lemma getitem_out {A} (a : list A) (i : nat) :
  (length a <= i)%nat -> Np.getitem a i = IndexError.
Proof.
  intros Hi. unfold Np.getitem.
  apply nth_error_None in Hi. rewrite Hi. reflexivity.
Qed.

Lemma take_map {A} (a : list A) (d : A) (idx : list nat) :
  Forall (fun i => (i < length a)%nat) idx ->
  Np.take a idx = Ok (map (fun i => nth i a d) idx).
Proof.
  induction 1 as [|i idx Hi _ IH]; simpl.
  - reflexivity.
  - rewrite (getitem_nth a d Hi), IH. reflexivity.
Qed.

Lemma zip_with_map {A B C D} (f : B -> C -> D) (g : A -> B) (h : A -> C) l :
  Np.zip_with f (map g l) (map h l) = map (fun x => f (g x) (h x)) l.
Proof.
  induction l as [|x l IH]; simpl; [reflexivity | now rewrite IH].
Qed.

Lemma zip_with_length {A B C} (f : A -> B -> C) a b :
  length a = length b -> length (Np.zip_with f a b) = length a.
Proof.
  revert b. induction a as [|x a IH]; intros [|y b] H; simpl in *;
    try discriminate; [reflexivity | f_equal; apply IH; lia].
Qed.

Lemma where_from_S k mask :
  map S (Np.where_from k mask) = Np.where_from (S k) mask.
Proof.
  revert k. induction mask as [|b mask IH]; intros k; simpl.
  - reflexivity.
  - destruct b; simpl; now rewrite IH.
Qed.

(** Indexing with the positions of a mask selects what the mask selects. *)
Lemma take_where_filter {A} (p : A -> bool) (pre rest : list A) :
  Np.take (pre ++ rest) (Np.where_from (length pre) (map p rest))
  = Ok (filter p rest).
Proof.
  revert pre. induction rest as [|x rest IH]; intros pre; simpl.
  - reflexivity.
  - pose proof (IH (pre ++ [x])) as IH'.
    rewrite <- app_assoc, length_app in IH'. simpl in IH'.
    rewrite Nat.add_1_r in IH'.
    destruct (p x); simpl.
    + unfold Np.getitem. rewrite nth_error_app2 by lia.
      rewrite Nat.sub_diag. simpl. rewrite IH'. reflexivity.
    + exact IH'.
Qed.

Lemma compress_map {A B} (f : A -> B) mask (a : list A) :
  Np.compress mask (map f a) = map f (Np.compress mask a).
Proof.
  revert a. induction mask as [|b mask IH]; intros [|x a]; simpl;
    try reflexivity.
  destruct b; simpl; now rewrite IH.
Qed.

Lemma compress_filter {A} (p : A -> bool) (a : list A) :
  Np.compress (map p a) a = filter p a.
Proof.
  induction a as [|x a IH]; simpl; [reflexivity|].
  destruct (p x); now rewrite IH.
Qed.

(** ** Comparisons of a quotient *)

Lemma np_gt_not_le v t : np_gt v t -> np_le v t = false.
Proof.
  destruct v as [q| | |]; simpl; intros H; try reflexivity; try contradiction.
  destruct (Qle_bool q t) eqn:E; [|reflexivity].
  apply Qle_bool_iff in E. exfalso. exact (Qlt_not_le _ _ H E).
Qed.

Lemma np_le_not_gt v t : np_le v t = true -> ~ np_gt v t.
Proof.
  intros H G. apply np_gt_not_le in G. congruence.
Qed.

Lemma np_le_Fin q t : np_le (Fin q) t = true <-> q <= t.
Proof. simpl. apply Qle_bool_iff. Qed.

Lemma np_div_nonzero a b : ~ b == 0 -> np_div a b = Fin (a / b).
Proof.
  intros Hb. unfold np_div.
  destruct (Qeq_bool b 0) eqn:E; [|reflexivity].
  apply Qeq_bool_iff in E. contradiction.
Qed.

Lemma np_div_zero_zero a b : a == 0 -> b == 0 -> np_div a b = NaN.
Proof.
  intros Ha Hb. unfold np_div.
  apply Qeq_bool_iff in Ha, Hb. now rewrite Ha, Hb.
Qed.

(** ** Overlap of two boxes *)

Lemma Qmax_0_nonneg q : 0 <= Qmax 0 q.
Proof. apply Q.le_max_l. Qed.

Lemma inter_area_nonneg a b : 0 <= inter_area a b.
Proof.
  unfold inter_area. apply Qmult_le_0_compat; apply Qmax_0_nonneg.
Qed.

Lemma inter_area_comm a b : inter_area a b == inter_area b a.
Proof.
  unfold inter_area.
  rewrite (Q.max_comm (bx1 a)), (Q.max_comm (by1 a)),
    (Q.min_comm (bx2 a)), (Q.min_comm (by2 a)).
  reflexivity.
Qed.

Lemma iou_denominator_comm a b : iou_denominator a b == iou_denominator b a.
Proof.
  unfold iou_denominator. rewrite (inter_area_comm a b). ring.
Qed.

#[local] Instance np_div_proper : Proper (Qeq ==> Qeq ==> np_eq) np_div.
Proof.
  intros a a' Ha b b' Hb. unfold np_div.
  assert (Eb : Qeq_bool b 0 = Qeq_bool b' 0) by now rewrite Hb.
  assert (Ea : Qeq_bool a 0 = Qeq_bool a' 0) by now rewrite Ha.
  assert (El : Qle_bool 0 a = Qle_bool 0 a') by now rewrite Ha.
  rewrite Eb, Ea, El.
  destruct (Qeq_bool b' 0).
  - destruct (Qeq_bool a' 0); [exact I|].
    destruct (Qle_bool 0 a'); exact I.
  - simpl. now rewrite Ha, Hb.
Qed.

Lemma np_le_eq v w t : np_eq v w -> np_le v t = np_le w t.
Proof.
  destruct v, w; simpl; intros H; try contradiction; try reflexivity.
  now rewrite H.
Qed.

Lemma iou_comm a b : np_eq (iou a b) (iou b a).
Proof.
  unfold iou. apply np_div_proper.
  - apply inter_area_comm.
  - apply iou_denominator_comm.
Qed.

Lemma survives_comm boxes t i j : survives boxes t i j = survives boxes t j i.
Proof. unfold survives. apply np_le_eq, iou_comm. Qed.

(** ** Lists kept by the greedy passes *)

Lemma greedy_nms_Forall (P : nat -> Prop) boxes t order :
  Forall P order -> Forall P (greedy_nms boxes t order).
Proof.
  funelim (greedy_nms boxes t order); intros HP; simp greedy_nms.
  inversion HP as [|? ? Hi Hrest]; subst.
  constructor; [assumption|].
  apply H. apply Forall_forall. intros j Hj.
  apply filter_In in Hj. rewrite Forall_forall in Hrest. now apply Hrest.
Qed.

Lemma filter_Forall_true {A} (p : A -> bool) l :
  Forall (fun x => p x = true) (filter p l).
Proof.
  apply Forall_forall. intros x Hx. now apply filter_In in Hx.
Qed.

Lemma StronglySorted_filter {A} (R : A -> A -> Prop) (p : A -> bool) l :
  StronglySorted R l -> StronglySorted R (filter p l).
Proof.
  induction 1 as [|a l _ IH Ha]; simpl; [constructor|].
  destruct (p a); [|assumption].
  constructor; [assumption|].
  apply Forall_forall. intros x Hx. apply filter_In in Hx.
  rewrite Forall_forall in Ha. now apply Ha.
Qed.

Lemma greedy_nms_sorted (R : nat -> nat -> Prop) boxes t order :
  StronglySorted R order -> StronglySorted R (greedy_nms boxes t order).
Proof.
  funelim (greedy_nms boxes t order); intros HS; simp greedy_nms.
  apply StronglySorted_inv in HS. destruct HS as [HS Hi].
  constructor.
  - apply H. now apply StronglySorted_filter.
  - apply greedy_nms_Forall. apply Forall_forall. intros j Hj.
    apply filter_In in Hj. rewrite Forall_forall in Hi. now apply Hi.
Qed.

Lemma greedy_nms_incl boxes t order : incl (greedy_nms boxes t order) order.
Proof.
  intros x Hx.
  assert (F : Forall (fun i => In i order) (greedy_nms boxes t order))
    by (apply greedy_nms_Forall, Forall_forall; auto).
  rewrite Forall_forall in F. now apply F.
Qed.

Lemma greedy_nms_NoDup boxes t order :
  NoDup order -> NoDup (greedy_nms boxes t order).
Proof.
  funelim (greedy_nms boxes t order); intros HN; simp greedy_nms.
  inversion HN as [|? ? Hni Hrest]; subst.
  constructor.
  - intros Hin. apply greedy_nms_incl in Hin. apply filter_In in Hin. tauto.
  - apply H. now apply NoDup_filter.
Qed.

(** Every kept box survived the pass of every box kept before it. *)
Lemma greedy_nms_pairwise boxes t order :
  ForallOrdPairs (fun i j => survives boxes t i j = true)
    (greedy_nms boxes t order).
Proof.
  funelim (greedy_nms boxes t order); simp greedy_nms; constructor.
  - apply greedy_nms_Forall, filter_Forall_true.
  - apply H.
Qed.

(** When no pass suppresses anything, every index is kept. *)
Lemma greedy_nms_all boxes t order :
  ForallOrdPairs (fun i j => survives boxes t i j = true) order ->
  greedy_nms boxes t order = order.
Proof.
  funelim (greedy_nms boxes t order); intros HP; simp greedy_nms;
    [reflexivity|].
  inversion HP as [|? ? Hi Hrest]; subst.
  assert (E : filter (survives boxes iou_threshold i) rest = rest).
  { apply forallb_filter_id. apply forallb_forall.
    rewrite Forall_forall in Hi. exact Hi. }
  rewrite E in *. f_equal. now apply H.
Qed.

(** ** The loop of [nms] against the greedy passes *)

Section NmsLoop.

Variable boxes : list Box.
Variable iou_threshold : Q.

Let x1 := map bx1 boxes.
Let y1 := map by1 boxes.
Let x2 := map bx2 boxes.
Let y2 := map by2 boxes.
Let areas := map area boxes.

Lemma nth_column (f : Box -> Q) (j : nat) :
  f box0 = 0 -> nth j (map f boxes) 0 = f (nth j boxes box0).
Proof. intros E. rewrite <- E. apply map_nth. Qed.

Lemma areas_vectorised :
  Np.zip_with Qmult (Np.zip_with Qminus x2 x1) (Np.zip_with Qminus y2 y1)
  = areas.
Proof.
  unfold x1, x2, y1, y2, areas. now rewrite !zip_with_map.
Qed.

(** One pass retains exactly the remaining indices that [survives] accepts. *)
Lemma nms_step_filter i rest :
  (i < length boxes)%nat ->
  Forall (fun j => (j < length boxes)%nat) rest ->
  nms_step x1 y1 x2 y2 areas iou_threshold (i :: rest) i rest
  = Ok (filter (survives boxes iou_threshold i) rest).
Proof.
  intros Hi Hrest. unfold nms_step, x1, y1, x2, y2, areas.
  rewrite !(@getitem_nth Q _ i 0) by (rewrite length_map; exact Hi).
  rewrite !(@take_map Q _ 0 rest) by (rewrite length_map; exact Hrest).
  simpl bind.
  rewrite !map_map, !zip_with_map, !map_map, !zip_with_map, !map_map.
  unfold Np.where_. rewrite where_from_S.
  rewrite (take_where_filter _ [i] rest). f_equal.
  apply filter_ext. intros j. unfold survives, iou, iou_denominator, inter_area.
  rewrite !(nth_column bx1), !(nth_column by1), !(nth_column bx2),
    !(nth_column by2), !(nth_column area) by reflexivity.
  reflexivity.
Qed.

Lemma nms_loop_greedy fuel : forall order keep,
  (length order <= fuel)%nat ->
  Forall (fun j => (j < length boxes)%nat) order ->
  nms_loop x1 y1 x2 y2 areas iou_threshold fuel order keep
  = Ok (keep ++ greedy_nms boxes iou_threshold order).
Proof.
  induction fuel as [|fuel IH]; intros [|i rest] keep Hlen Hidx; simpl in *.
  - simp greedy_nms. now rewrite app_nil_r.
  - lia.
  - simp greedy_nms. now rewrite app_nil_r.
  - inversion Hidx as [|? ? Hi Hrest]; subst.
    rewrite (nms_step_filter Hi Hrest). simpl bind.
    rewrite IH.
    + simp greedy_nms. now rewrite <- app_assoc.
    + pose proof (filter_length_le (survives boxes iou_threshold i) rest). lia.
    + apply Forall_forall. intros j Hj. apply filter_In in Hj.
      rewrite Forall_forall in Hrest. now apply Hrest.
Qed.

End NmsLoop.

Section NmsFacts.

Variable argsort : list Q -> list nat.

Hypothesis argsort_perm : argsort_permutes argsort.
Hypothesis argsort_sorted : argsort_ascending argsort.

Lemma order_indices scores :
  Forall (fun j => (j < length scores)%nat) (rev (argsort scores)).
Proof.
  apply Forall_forall. intros j Hj. apply in_rev in Hj.
  apply (Permutation_in _ (argsort_perm scores)) in Hj.
  apply in_seq in Hj. lia.
Qed.

Lemma order_NoDup scores : NoDup (rev (argsort scores)).
Proof.
  apply NoDup_rev.
  apply (Permutation_NoDup (Permutation_sym (argsort_perm scores))).
  apply seq_NoDup.
Qed.

Lemma StronglySorted_snoc {A} (R : A -> A -> Prop) l a :
  StronglySorted R l -> Forall (fun x => R x a) l ->
  StronglySorted R (l ++ [a]).
Proof.
  induction 1 as [|b l _ IH Hb]; intros Ha; simpl.
  - constructor; constructor.
  - inversion Ha; subst. constructor; [now apply IH|].
    apply Forall_app. split; [assumption | constructor; [assumption|constructor]].
Qed.

Lemma StronglySorted_rev {A} (R : A -> A -> Prop) l :
  StronglySorted R l -> StronglySorted (fun x y => R y x) (rev l).
Proof.
  induction 1 as [|a l _ IH Ha]; simpl; [constructor|].
  apply StronglySorted_snoc; [assumption|].
  apply Forall_rev. exact Ha.
Qed.

(** [order = scores.argsort()[::-1]] lists the indices by descending score. *)
Lemma order_descending scores :
  StronglySorted (fun i j => score_at scores j <= score_at scores i)
    (rev (argsort scores)).
Proof. apply StronglySorted_rev, argsort_sorted. Qed.

Lemma nms_greedy boxes scores t :
  length boxes = length scores ->
  nms argsort boxes scores t
  = Ok (greedy_nms boxes t (rev (argsort scores))).
Proof.
  intros Hlen. unfold nms.
  destruct (length boxes =? 0)%nat eqn:E.
  - apply Nat.eqb_eq in E. rewrite E in Hlen.
    pose proof (argsort_perm scores) as P. rewrite <- Hlen in P. simpl in P.
    apply Permutation_sym, Permutation_nil in P. rewrite P. simpl.
    now simp greedy_nms.
  - rewrite areas_vectorised.
    rewrite nms_loop_greedy; [reflexivity | lia |].
    rewrite Hlen. apply order_indices.
Qed.

(** C1. For N boxes and N scores [nms] returns a list [keep]: it is empty
    when N = 0; it is the result of the greedy passes over the indices in
    descending order of score, each pass keeping the first remaining index
    and dropping the remaining boxes whose IoU with it is strictly greater
    than the threshold, while a box whose IoU equals the threshold stays.
    The kept indices are distinct input indices, no two kept boxes have
    IoU above the threshold, and they come in descending order of score. *)
Theorem nms_greedy_descending boxes scores t :
  length boxes = length scores ->
  exists keep,
    nms argsort boxes scores t = Ok keep
    /\ (length boxes = 0%nat -> keep = [])
    /\ keep = greedy_nms boxes t (rev (argsort scores))
    /\ StronglySorted (fun i j => score_at scores j <= score_at scores i)
         (rev (argsort scores))
    /\ (forall i rest,
          greedy_nms boxes t (i :: rest)
          = i :: greedy_nms boxes t (filter (survives boxes t i) rest))
    /\ (forall i j, np_gt (iou (nth i boxes box0) (nth j boxes box0)) t ->
          survives boxes t i j = false)
    /\ (forall i j q, iou (nth i boxes box0) (nth j boxes box0) = Fin q ->
          q == t -> survives boxes t i j = true)
    /\ Forall (fun i => (i < length boxes)%nat) keep
    /\ NoDup keep
    /\ (forall i j, In i keep -> In j keep -> i <> j ->
          ~ np_gt (iou (nth i boxes box0) (nth j boxes box0)) t)
    /\ StronglySorted (fun i j => score_at scores j <= score_at scores i) keep.
Proof.
  intros Hlen. exists (greedy_nms boxes t (rev (argsort scores))).
  split; [now apply nms_greedy|].
  split.
  { intros H0. rewrite H0 in Hlen.
    pose proof (argsort_perm scores) as P. rewrite <- Hlen in P. simpl in P.
    apply Permutation_sym, Permutation_nil in P. rewrite P. simpl.
    now simp greedy_nms. }
  split; [reflexivity|].
  split; [apply order_descending|].
  split; [intros i rest; now simp greedy_nms|].
  split; [intros i j H; now apply np_gt_not_le|].
  split.
  { intros i j q E Hq. unfold survives. rewrite E. apply np_le_Fin.
    rewrite Hq. apply Qle_refl. }
  split.
  { apply greedy_nms_Forall. rewrite Hlen. apply order_indices. }
  split; [apply greedy_nms_NoDup, order_NoDup|].
  split.
  { intros i j Hi Hj Hne.
    pose proof (greedy_nms_pairwise boxes t (rev (argsort scores))) as P.
    destruct (ForallOrdPairs_In P _ _ Hi Hj) as [E | [S | S]].
    - contradiction.
    - now apply np_le_not_gt.
    - rewrite survives_comm in S. now apply np_le_not_gt. }
  apply greedy_nms_sorted, order_descending.
Qed.

End NmsFacts.

(** ** The insertion sort is an [argsort] *)

Lemma insert_index_perm scores i l :
  Permutation (insert_index scores i l) (i :: l).
Proof.
  induction l as [|j l IH]; simpl; [reflexivity|].
  destruct (Qle_bool (score_at scores j) (score_at scores i)).
  - rewrite IH. apply perm_swap.
  - reflexivity.
Qed.

Lemma fold_insert_perm scores idx : forall acc,
  Permutation
    (fold_left (fun sorted i => insert_index scores i sorted) idx acc)
    (idx ++ acc).
Proof.
  induction idx as [|i idx IH]; intros acc; simpl; [reflexivity|].
  rewrite IH, insert_index_perm. symmetry. apply Permutation_middle.
Qed.

Lemma argsort_insertion_perm : argsort_permutes argsort_insertion.
Proof.
  intros scores. unfold argsort_insertion.
  rewrite fold_insert_perm. now rewrite app_nil_r.
Qed.

Lemma insert_index_sorted scores i l :
  StronglySorted (fun a b => score_at scores a <= score_at scores b) l ->
  StronglySorted (fun a b => score_at scores a <= score_at scores b)
    (insert_index scores i l).
Proof.
  induction 1 as [|j l Hl IH Hj]; simpl.
  - constructor; constructor.
  - destruct (Qle_bool (score_at scores j) (score_at scores i)) eqn:E.
    + apply Qle_bool_iff in E. constructor; [exact IH|].
      apply (Permutation_Forall (Permutation_sym (insert_index_perm scores i l))).
      constructor; assumption.
    + assert (Hij : score_at scores i <= score_at scores j).
      { apply Qlt_le_weak, Qnot_le_lt. intros H.
        apply Qle_bool_iff in H. congruence. }
      constructor; [constructor; assumption|].
      constructor; [exact Hij|].
      apply Forall_forall. intros x Hx. rewrite Forall_forall in Hj.
      eapply Qle_trans; [exact Hij | now apply Hj].
Qed.

Lemma fold_insert_sorted scores idx : forall acc,
  StronglySorted (fun a b => score_at scores a <= score_at scores b) acc ->
  StronglySorted (fun a b => score_at scores a <= score_at scores b)
    (fold_left (fun sorted i => insert_index scores i sorted) idx acc).
Proof.
  induction idx as [|i idx IH]; intros acc H; simpl; [exact H|].
  apply IH, insert_index_sorted, H.
Qed.

Lemma argsort_insertion_sorted : argsort_ascending argsort_insertion.
Proof.
  intros scores. apply fold_insert_sorted. constructor.
Qed.

(** The scenario of section 8: boxes 0 and 1 overlap, box 2 scores highest. *)
Lemma nms_greedy_descending_witness :
  nms argsort_insertion
    [mkBox 0 0 10 10; mkBox 1 1 11 11; mkBox 50 50 60 60]
    [9 # 10; 8 # 10; 95 # 100] (1 # 2)
  = Ok [2%nat; 0%nat].
Proof.
  destruct (nms_greedy_descending argsort_insertion_perm
              argsort_insertion_sorted
              [mkBox 0 0 10 10; mkBox 1 1 11 11; mkBox 50 50 60 60]
              [9 # 10; 8 # 10; 95 # 100] (1 # 2) eq_refl)
    as (keep & Hnms & _ & Hkeep & _).
  rewrite Hnms, Hkeep. reflexivity.
Defined.

(** ** The quotient of line 174 *)

Lemma clamp_cases q : (Qmax 0 q == 0 /\ q <= 0) \/ (Qmax 0 q == q /\ 0 < q).
Proof.
  destruct (Q.max_spec 0 q) as [[H E]|[H E]]; [right | left]; split; assumption.
Qed.

Lemma overlap_le (lo1 lo2 hi1 hi2 : Q) :
  Qmin hi1 hi2 - Qmax lo1 lo2 <= hi1 - lo1 /\
  Qmin hi1 hi2 - Qmax lo1 lo2 <= hi2 - lo2.
Proof.
  pose proof (Q.le_min_l hi1 hi2). pose proof (Q.le_min_r hi1 hi2).
  pose proof (Q.le_max_l lo1 lo2). pose proof (Q.le_max_r lo1 lo2).
  split; lra.
Qed.

(** A positive overlap lies inside both boxes, so the divisor is positive. *)
Lemma inter_pos_denominator_pos a b :
  0 < inter_area a b -> 0 < iou_denominator a b.
Proof.
  unfold iou_denominator, area, inter_area.
  destruct (overlap_le (bx1 a) (bx1 b) (bx2 a) (bx2 b)) as [Hwa Hwb].
  destruct (overlap_le (by1 a) (by1 b) (by2 a) (by2 b)) as [Hha Hhb].
  destruct (clamp_cases (Qmin (bx2 a) (bx2 b) - Qmax (bx1 a) (bx1 b)))
    as [[Ew Hw]|[Ew Hw]];
  destruct (clamp_cases (Qmin (by2 a) (by2 b) - Qmax (by1 a) (by1 b)))
    as [[Eh Hh]|[Eh Hh]];
  rewrite Ew, Eh;
  generalize dependent (Qmin (bx2 a) (bx2 b) - Qmax (bx1 a) (bx1 b));
  generalize dependent (Qmin (by2 a) (by2 b) - Qmax (by1 a) (by1 b));
  intros H W; intros; nra.
Qed.

Lemma denominator_zero_iff a b :
  iou_denominator a b == 0
  <-> inter_area a b == 0 /\ area a + area b == 0.
Proof.
  split.
  - intros Hd.
    assert (Hi : inter_area a b == 0).
    { pose proof (inter_area_nonneg a b) as Hn.
      destruct (Qlt_le_dec 0 (inter_area a b)) as [Hp | Hle].
      - apply inter_pos_denominator_pos in Hp. lra.
      - lra. }
    split; [exact Hi|]. unfold iou_denominator in Hd. lra.
  - intros [Hi Ha]. unfold iou_denominator. lra.
Qed.

Lemma iou_zero_divisor a b :
  iou_denominator a b == 0 -> iou a b = NaN.
Proof.
  intros Hd. unfold iou. apply np_div_zero_zero; [|exact Hd].
  now apply denominator_zero_iff.
Qed.

Lemma inter_area_self a :
  bx1 a < bx2 a -> by1 a < by2 a -> inter_area a a == area a.
Proof.
  intros Hx Hy. unfold inter_area, area.
  rewrite !Q.max_id, !Q.min_id.
  rewrite (Q.max_r 0 (bx2 a - bx1 a)) by lra.
  rewrite (Q.max_r 0 (by2 a - by1 a)) by lra.
  reflexivity.
Qed.

Lemma area_pos a : bx1 a < bx2 a -> by1 a < by2 a -> 0 < area a.
Proof. intros Hx Hy. unfold area. nra. Qed.

Lemma inter_area_separated a b : separated a b -> inter_area a b == 0.
Proof.
  intros S. unfold inter_area.
  pose proof (Q.le_min_l (bx2 a) (bx2 b)). pose proof (Q.le_min_r (bx2 a) (bx2 b)).
  pose proof (Q.le_max_l (bx1 a) (bx1 b)). pose proof (Q.le_max_r (bx1 a) (bx1 b)).
  pose proof (Q.le_min_l (by2 a) (by2 b)). pose proof (Q.le_min_r (by2 a) (by2 b)).
  pose proof (Q.le_max_l (by1 a) (by1 b)). pose proof (Q.le_max_r (by1 a) (by1 b)).
  destruct S as [S | [S | [S | S]]].
  1, 2: rewrite (Q.max_l 0 (Qmin (bx2 a) (bx2 b) - Qmax (bx1 a) (bx1 b)))
          by lra; ring.
  all: rewrite (Q.max_l 0 (Qmin (by2 a) (by2 b) - Qmax (by1 a) (by1 b)))
         by lra; ring.
Qed.

(** C5, as the code has it.  The IoU of [nms] is [1] for a box with itself
    when the box has positive width and height, [0] for two boxes that do
    not overlap when their areas do not sum to zero, and the same value in
    both orders for every pair; the overlap is clamped at zero width and
    height, so it is never negative. *)
Theorem iou_self_separated_comm (a b : Box) :
  (bx1 a < bx2 a -> by1 a < by2 a -> np_eq (iou a a) (Fin 1))
  /\ (separated a b -> ~ area a + area b == 0 -> np_eq (iou a b) (Fin 0))
  /\ np_eq (iou a b) (iou b a)
  /\ 0 <= inter_area a b.
Proof.
  split; [|split; [|split]].
  - intros Hx Hy. unfold iou.
    pose proof (inter_area_self a Hx Hy) as Ei.
    pose proof (area_pos a Hx Hy) as Hp.
    assert (Ed : iou_denominator a a == area a)
      by (unfold iou_denominator; rewrite Ei; ring).
    rewrite np_div_nonzero by (rewrite Ed; lra).
    simpl. rewrite Ei, Ed. field. lra.
  - intros S Hs. unfold iou.
    pose proof (inter_area_separated S) as Ei.
    assert (Ed : iou_denominator a b == area a + area b)
      by (unfold iou_denominator; rewrite Ei; ring).
    rewrite np_div_nonzero by (rewrite Ed; exact Hs).
    simpl. rewrite Ei. field. rewrite Ed. exact Hs.
  - apply iou_comm.
  - apply inter_area_nonneg.
Qed.

Lemma iou_self_separated_comm_witness :
  np_eq (iou (mkBox 0 0 10 10) (mkBox 0 0 10 10)) (Fin 1)
  /\ np_eq (iou (mkBox 0 0 10 10) (mkBox 50 50 60 60)) (Fin 0).
Proof.
  destruct (iou_self_separated_comm (mkBox 0 0 10 10) (mkBox 50 50 60 60))
    as (Hself & Hsep & _).
  split.
  - apply Hself; reflexivity.
  - apply Hsep.
    + left. simpl. discriminate.
    + simpl. discriminate.
Defined.

(** C5 fails for boxes of zero area: the IoU of such a box with itself, and
    with a zero-area box apart from it, is [0/0]. *)
Lemma iou_zero_area_undefined :
  iou (mkBox 0 0 0 0) (mkBox 0 0 0 0) = NaN
  /\ ~ np_eq (iou (mkBox 0 0 0 0) (mkBox 0 0 0 0)) (Fin 1)
  /\ separated (mkBox 0 0 0 0) (mkBox 5 5 5 5)
  /\ iou (mkBox 0 0 0 0) (mkBox 5 5 5 5) = NaN
  /\ ~ np_eq (iou (mkBox 0 0 0 0) (mkBox 5 5 5 5)) (Fin 0).
Proof.
  split; [reflexivity|].
  split; [intros H; exact H|].
  split; [left; simpl; discriminate|].
  split; [reflexivity|].
  intros H; exact H.
Qed.

(** C2, as the code has it.  [nms] has no guard on the divisor.  For a
    compared pair the divisor is zero exactly when the overlap is zero and
    the two areas sum to zero (so whenever both areas are zero); the quotient
    is then [nan], the test [iou <= iou_threshold] fails for every threshold
    and the compared box is dropped.  For every other pair the quotient is
    the finite number [inter / divisor]. *)
Theorem nms_divisor_unguarded (boxes : list Box) (t : Q) (i j : nat) :
  let a := nth i boxes box0 in
  let b := nth j boxes box0 in
  (iou_denominator a b == 0
   <-> inter_area a b == 0 /\ area a + area b == 0)
  /\ (area a == 0 -> area b == 0 -> iou_denominator a b == 0)
  /\ (iou_denominator a b == 0 ->
      iou a b = NaN /\ survives boxes t i j = false)
  /\ (~ iou_denominator a b == 0 ->
      iou a b = Fin (inter_area a b / iou_denominator a b)).
Proof.
  intros a b.
  split; [apply denominator_zero_iff|].
  split.
  { intros Ha Hb.
    pose proof (inter_area_nonneg a b) as Hn.
    destruct (Qlt_le_dec 0 (inter_area a b)) as [Hp | Hle].
    - pose proof (inter_pos_denominator_pos Hp) as Hd.
      unfold iou_denominator in *. lra.
    - unfold iou_denominator. lra. }
  split.
  { intros Hd. pose proof (iou_zero_divisor Hd) as E.
    split; [exact E|]. unfold survives. fold a b. now rewrite E. }
  intros Hd. unfold iou. now apply np_div_nonzero.
Qed.

Lemma nms_divisor_unguarded_witness :
  iou (mkBox 0 0 0 0) (mkBox 5 5 5 5) = NaN
  /\ iou (mkBox 0 0 10 10) (mkBox 1 1 11 11) = Fin (81 / 119).
Proof.
  split.
  - apply (nms_divisor_unguarded [mkBox 0 0 0 0; mkBox 5 5 5 5] (1 # 2) 0 1).
    reflexivity.
  - apply (nms_divisor_unguarded [mkBox 0 0 10 10; mkBox 1 1 11 11] (1 # 2) 0 1).
    simpl. discriminate.
Defined.

(** C2 fails: two zero-area boxes far apart are compared by [0/0]; the
    quotient is not [0] and the lower-scoring box is suppressed. *)
Lemma nms_zero_area_suppressed :
  area (mkBox 0 0 0 0) == 0 /\ area (mkBox 5 5 5 5) == 0
  /\ iou_denominator (mkBox 0 0 0 0) (mkBox 5 5 5 5) == 0
  /\ iou (mkBox 0 0 0 0) (mkBox 5 5 5 5) = NaN
  /\ nms argsort_insertion [mkBox 0 0 0 0; mkBox 5 5 5 5] [9 # 10; 8 # 10] (1 # 2)
     = Ok [0%nat].
Proof. repeat split. Qed.

(** ** Running [nms] on what it kept *)

Lemma ForallOrdPairs_NoDup {A} (R : A -> A -> Prop) l :
  NoDup l ->
  (forall x y, In x l -> In y l -> x <> y -> R x y) ->
  ForallOrdPairs R l.
Proof.
  induction 1 as [|a l Ha _ IH]; intros HR; constructor.
  - apply Forall_forall. intros y Hy. apply HR; simpl; auto.
    intros E. subst. contradiction.
  - apply IH. intros x y Hx Hy. apply HR; simpl; auto.
Qed.

Lemma StronglySorted_nth {A} (R : A -> A -> Prop) (d : A) l :
  StronglySorted R l ->
  forall p q, (p < q < length l)%nat -> R (nth p l d) (nth q l d).
Proof.
  induction 1 as [|a l _ IH Ha]; intros p q Hpq; simpl in *; [lia|].
  destruct q as [|q]; [lia|]. destruct p as [|p].
  - rewrite Forall_forall in Ha. apply Ha, nth_In. lia.
  - apply IH. lia.
Qed.

Lemma nth_take {A} (a : list A) (d : A) (idx : list nat) p :
  (p < length idx)%nat ->
  nth p (map (fun i => nth i a d) idx) d = nth (nth p idx 0%nat) a d.
Proof.
  intros Hp.
  rewrite (nth_indep _ d (nth 0%nat a d)) by (rewrite length_map; exact Hp).
  exact (map_nth (fun i => nth i a d) idx 0%nat p).
Qed.

Lemma sorted_lt_perm_eq (l1 : list nat) : forall l2,
  StronglySorted lt l1 -> StronglySorted lt l2 -> Permutation l1 l2 ->
  l1 = l2.
Proof.
  induction l1 as [|a l1 IH]; intros l2 S1 S2 P.
  - apply Permutation_nil in P. now subst.
  - destruct l2 as [|b l2];
      [apply Permutation_sym, Permutation_nil in P; discriminate|].
    apply StronglySorted_inv in S1, S2.
    destruct S1 as [S1 Ha], S2 as [S2 Hb].
    rewrite Forall_forall in Ha, Hb.
    assert (E : a = b).
    { assert (Ia : In a (b :: l2))
        by (apply (Permutation_in _ P); simpl; auto).
      assert (Ib : In b (a :: l1))
        by (apply (Permutation_in _ (Permutation_sym P)); simpl; auto).
      destruct Ia as [Ia | Ia]; [now subst|].
      destruct Ib as [Ib | Ib]; [now subst|].
      apply Hb in Ia. apply Ha in Ib. lia. }
    subst. f_equal. apply IH; try assumption.
    now apply Permutation_cons_inv in P.
Qed.

Lemma seq_sorted s n : StronglySorted lt (seq s n).
Proof.
  revert s. induction n as [|n IH]; intros s; simpl; constructor.
  - apply IH.
  - apply Forall_forall. intros x Hx. apply in_seq in Hx. lia.
Qed.

(** Positions listed by descending value of a strictly decreasing key are
    listed in increasing order. *)
Lemma descending_positions_sorted (f : nat -> Q) (k : nat) (l : list nat) :
  (forall p q, (p < q < k)%nat -> f q < f p) ->
  StronglySorted (fun a b => f b <= f a) l ->
  NoDup l ->
  (forall p, In p l -> (p < k)%nat) ->
  StronglySorted lt l.
Proof.
  intros Hdesc. induction l as [|a l IH]; intros Hord Hnd Hlt; constructor.
  - apply IH.
    + now apply StronglySorted_inv in Hord.
    + now inversion Hnd.
    + intros p Hp. apply Hlt. simpl. auto.
  - apply StronglySorted_inv in Hord. destruct Hord as [_ Ha].
    rewrite Forall_forall in Ha. apply Forall_forall. intros b Hb.
    inversion Hnd as [|? ? Hni _]; subst.
    destruct (Nat.lt_trichotomy a b) as [H | [H | H]]; [exact H | |].
    + subst. contradiction.
    + exfalso. pose proof (Ha b Hb) as Hle.
      assert (Hb' : (b < a < k)%nat)
        by (split; [exact H | apply Hlt; simpl; auto]).
      apply Hdesc in Hb'. lra.
Qed.

Section NmsIdempotence.

Variable argsort : list Q -> list nat.
Hypothesis argsort_perm : argsort_permutes argsort.
Hypothesis argsort_sorted : argsort_ascending argsort.

(** Any two distinct kept boxes pass each other's test. *)
Lemma kept_pairs_survive boxes t order i j :
  In i (greedy_nms boxes t order) -> In j (greedy_nms boxes t order) ->
  i <> j -> survives boxes t i j = true.
Proof.
  intros Hi Hj Hne.
  destruct (ForallOrdPairs_In (greedy_nms_pairwise boxes t order) _ _ Hi Hj)
    as [E | [S | S]].
  - contradiction.
  - exact S.
  - now rewrite survives_comm.
Qed.

(** C4. Running [nms] on the boxes and scores it kept, with the same
    threshold, suppresses nothing: the second result lists every position
    [0..k-1] of the kept arrays once, and lists them in order when the kept
    scores are pairwise different. *)
Theorem nms_idempotent boxes scores t :
  length boxes = length scores ->
  exists keep kept_boxes kept_scores keep2,
    nms argsort boxes scores t = Ok keep
    /\ Np.take boxes keep = Ok kept_boxes
    /\ Np.take scores keep = Ok kept_scores
    /\ nms argsort kept_boxes kept_scores t = Ok keep2
    /\ Permutation keep2 (seq 0 (length keep))
    /\ ((forall p q, (p < q < length keep)%nat ->
          ~ score_at kept_scores p == score_at kept_scores q) ->
        keep2 = seq 0 (length keep)).
Proof.
  intros Hlen.
  set (keep := greedy_nms boxes t (rev (argsort scores))).
  assert (Hnms : nms argsort boxes scores t = Ok keep)
    by now apply nms_greedy.
  assert (Hidx : Forall (fun i => (i < length boxes)%nat) keep)
    by (apply greedy_nms_Forall; rewrite Hlen; now apply order_indices).
  assert (Hnd : NoDup keep) by now apply greedy_nms_NoDup, order_NoDup.
  assert (Hsorted :
            StronglySorted (fun i j => score_at scores j <= score_at scores i)
              keep)
    by now apply greedy_nms_sorted, order_descending.
  set (kept_boxes := map (fun i => nth i boxes box0) keep).
  set (kept_scores := map (fun i => nth i scores 0) keep).
  set (order2 := rev (argsort kept_scores)).
  assert (Hk : length kept_boxes = length kept_scores)
    by (unfold kept_boxes, kept_scores; now rewrite !length_map).
  assert (Hks : length kept_scores = length keep)
    by (unfold kept_scores; now rewrite length_map).
  assert (Hperm : Permutation order2 (seq 0 (length keep))).
  { unfold order2. rewrite <- Hks.
    rewrite <- (argsort_perm kept_scores). symmetry. apply Permutation_rev. }
  assert (Hlt : forall p, In p order2 -> (p < length keep)%nat).
  { intros p Hp. apply (Permutation_in _ Hperm) in Hp.
    apply in_seq in Hp. lia. }
  assert (Hall : greedy_nms kept_boxes t order2 = order2).
  { apply greedy_nms_all. apply ForallOrdPairs_NoDup.
    - apply (order_NoDup argsort_perm).
    - intros p q Hp Hq Hne. apply Hlt in Hp, Hq.
      assert (E : survives kept_boxes t p q
                  = survives boxes t (nth p keep 0%nat) (nth q keep 0%nat)).
      { unfold survives, kept_boxes. now rewrite !nth_take by assumption. }
      rewrite E.
      apply (@kept_pairs_survive boxes t (rev (argsort scores))).
      + now apply nth_In.
      + now apply nth_In.
      + intros E'. apply Hne.
        apply (proj1 (NoDup_nth keep 0%nat) Hnd); assumption. }
  exists keep, kept_boxes, kept_scores, order2.
  split; [exact Hnms|].
  split; [apply take_map; exact Hidx|].
  split; [apply take_map; rewrite <- Hlen; exact Hidx|].
  split; [rewrite (nms_greedy argsort_perm _ _ t Hk); exact (f_equal Ok Hall)|].
  split; [exact Hperm|].
  intros Hdistinct.
  apply sorted_lt_perm_eq; [|apply seq_sorted|exact Hperm].
  assert (Hdesc : forall p q, (p < q < length keep)%nat ->
            score_at kept_scores q < score_at kept_scores p).
  { intros p q Hpq.
    assert (Hle : score_at kept_scores q <= score_at kept_scores p).
    { unfold score_at, kept_scores. rewrite !nth_take by lia.
      apply (StronglySorted_nth 0%nat Hsorted). exact Hpq. }
    destruct (Qlt_le_dec (score_at kept_scores q) (score_at kept_scores p))
      as [H | H]; [exact H|].
    exfalso. apply (Hdistinct p q Hpq). now apply Qle_antisym. }
  apply (descending_positions_sorted (score_at kept_scores) Hdesc).
  - apply (order_descending argsort_sorted kept_scores).
  - apply (order_NoDup argsort_perm).
  - exact Hlt.
Qed.

End NmsIdempotence.

(** The scenario of section 8 again: the kept boxes 2 and 0 are both kept
    by a second run, in the same order. *)
Lemma nms_idempotent_witness :
  exists keep2,
    nms argsort_insertion [mkBox 50 50 60 60; mkBox 0 0 10 10]
      [95 # 100; 9 # 10] (1 # 2) = Ok keep2
    /\ Permutation keep2 [0%nat; 1%nat].
Proof.
  destruct (nms_idempotent argsort_insertion_perm argsort_insertion_sorted
              [mkBox 0 0 10 10; mkBox 1 1 11 11; mkBox 50 50 60 60]
              [9 # 10; 8 # 10; 95 # 100] (1 # 2) eq_refl)
    as (keep & kb & ks & keep2 & Hnms & Hkb & Hks & Hnms2 & Hperm & _).
  assert (Hkeep : keep = [2%nat; 0%nat]).
  { rewrite (nms_greedy argsort_insertion_perm) in Hnms by reflexivity.
    injection Hnms as <-. reflexivity. }
  subst keep.
  injection Hkb as <-. injection Hks as <-.
  exists keep2. split; [exact Hnms2 | exact Hperm].
Defined.

(** ** The threshold of [post_process] *)

Lemma filtered_rows_filter sigmoid prediction threshold :
  filtered_rows sigmoid prediction threshold
  = filter (fun r => negb (Qle_bool (confidence sigmoid r) threshold))
      (rows prediction).
Proof.
  unfold filtered_rows, score_mask. apply compress_filter.
Qed.

Lemma above_threshold (s t : Q) : negb (Qle_bool s t) = true <-> t < s.
Proof.
  rewrite negb_true_iff. split.
  - intros E. apply Qnot_le_lt. intros H. apply Qle_bool_iff in H. congruence.
  - intros H. destruct (Qle_bool s t) eqn:E; [|reflexivity].
    apply Qle_bool_iff in E. exfalso. exact (Qlt_not_le _ _ H E).
Qed.

Lemma compress_length {A} mask (a : list A) :
  length mask = length a ->
  length (Np.compress mask a) = length (filter (fun b => b) mask).
Proof.
  revert a. induction mask as [|b mask IH]; intros [|x a] H; simpl in *;
    try discriminate; [reflexivity|].
  destruct b; simpl; rewrite IH by lia; reflexivity.
Qed.

Section PostProcessFacts.

Variable argsort : list Q -> list nat.
Variable sigmoid : Q -> Q.
Hypothesis argsort_perm : argsort_permutes argsort.
(** The logistic function at a zero logit. *)
Hypothesis sigmoid_zero : sigmoid 0 == 1 # 2.

(** C3. The rows [post_process] passes on to suppression are exactly the
    rows whose confidence, the sigmoid of column 4, is strictly greater than
    the threshold, in their order: a row whose confidence equals the
    threshold is excluded (so a zero logit is excluded at threshold 0.5), a
    row at threshold + eps is included, and what [post_process] returns is
    the selection [nms] makes among those rows. *)
Theorem post_process_threshold_strict (prediction : Tensor) (threshold : Q) :
  (4 < ncols prediction)%nat ->
  let F := filtered_rows sigmoid prediction threshold in
  F = filter (fun r => negb (Qle_bool (confidence sigmoid r) threshold))
        (rows prediction)
  /\ (forall r, In r F
        <-> In r (rows prediction) /\ threshold < confidence sigmoid r)
  /\ (forall r, confidence sigmoid r == threshold -> ~ In r F)
  /\ (forall r eps, In r (rows prediction) -> 0 < eps ->
        confidence sigmoid r == threshold + eps -> In r F)
  /\ (threshold == 1 # 2 -> forall r, nth 4 r 0 = 0 -> ~ In r F)
  /\ exists keep fb fs fc,
       nms argsort (map row_box F) (map (confidence sigmoid) F) (1 # 2) = Ok keep
       /\ post_process argsort sigmoid prediction threshold = Ok (fb, fs, fc)
       /\ Forall (fun i => (i < length F)%nat) keep
       /\ fb = map (fun i => row_box (nth i F [])) keep
       /\ fs = map (fun i => confidence sigmoid (nth i F [])) keep
       /\ length fc = length keep.
Proof.
  intros Hcols F.
  assert (EF : F = filter (fun r => negb (Qle_bool (confidence sigmoid r) threshold))
                     (rows prediction)) by apply filtered_rows_filter.
  assert (HF : forall r, In r F
             <-> In r (rows prediction) /\ threshold < confidence sigmoid r).
  { intros r. rewrite EF, filter_In, above_threshold. reflexivity. }
  assert (Hex : forall r, confidence sigmoid r == threshold -> ~ In r F).
  { intros r E Hin. apply HF in Hin. destruct Hin as [_ Hlt]. lra. }
  split; [exact EF|]. split; [exact HF|]. split; [exact Hex|].
  split. { intros r eps Hr He E. apply HF. split; [exact Hr | lra]. }
  split.
  { intros Ht r E. apply Hex. unfold confidence. rewrite E, sigmoid_zero.
    now symmetry. }
  set (p := fun r => negb (Qle_bool (confidence sigmoid r) threshold)) in *.
  set (keep := greedy_nms (map row_box F) (1 # 2)
                 (rev (argsort (map (confidence sigmoid) F)))).
  assert (Hlen : length (map row_box F) = length (map (confidence sigmoid) F))
    by now rewrite !length_map.
  assert (Hnms : nms argsort (map row_box F) (map (confidence sigmoid) F) (1 # 2)
                 = Ok keep) by now apply nms_greedy.
  assert (Hidx : Forall (fun i => (i < length F)%nat) keep).
  { apply greedy_nms_Forall.
    rewrite <- (length_map (confidence sigmoid) F).
    now apply order_indices. }
  set (ids := if (5 <? ncols prediction)%nat
              then map Np.argmax (map (skipn 5) F)
              else repeat 0%nat (length (map row_box F))).
  assert (Hids : length ids = length F).
  { unfold ids. destruct (5 <? ncols prediction)%nat.
    - now rewrite !length_map.
    - now rewrite repeat_length, length_map. }
  exists keep, (map (fun i => row_box (nth i F [])) keep),
    (map (fun i => confidence sigmoid (nth i F [])) keep),
    (map (fun i => nth i ids 0%nat) keep).
  split; [exact Hnms|].
  split.
  { unfold post_process.
    replace (ncols prediction <=? 4)%nat with false
      by (symmetry; apply Nat.leb_gt; exact Hcols).
    rewrite map_map. fold p.
    rewrite !compress_map, !compress_filter. rewrite <- EF.
    rewrite Hnms. simpl bind.
    rewrite (take_map (map row_box F) box0)
      by (rewrite length_map; exact Hidx).
    rewrite (take_map (map (confidence sigmoid) F) 0)
      by (rewrite length_map; exact Hidx).
    simpl bind. fold ids.
    rewrite (take_map ids 0%nat) by (rewrite Hids; exact Hidx).
    simpl bind. do 3 f_equal.
    - apply map_ext_in. intros i Hi.
      rewrite Forall_forall in Hidx. specialize (Hidx i Hi).
      rewrite (nth_indep _ box0 (row_box [])) by (now rewrite length_map).
      apply map_nth.
    - apply map_ext_in. intros i Hi.
      rewrite Forall_forall in Hidx. specialize (Hidx i Hi).
      rewrite (nth_indep _ 0 (confidence sigmoid [])) by (now rewrite length_map).
      apply map_nth. }
  split; [exact Hidx|].
  split; [reflexivity|]. split; [reflexivity|]. apply length_map.
Qed.

End PostProcessFacts.

Lemma post_process_threshold_strict_witness :
  ~ In [1 # 10; 1 # 10; 4 # 10; 4 # 10; 0]
      (filtered_rows sigmoid_rational
         (mkTensor 5 [[1 # 10; 1 # 10; 4 # 10; 4 # 10; 0];
                      [1 # 10; 1 # 10; 4 # 10; 4 # 10; 1 # 100]]) (1 # 2))
  /\ In [1 # 10; 1 # 10; 4 # 10; 4 # 10; 1 # 100]
      (filtered_rows sigmoid_rational
         (mkTensor 5 [[1 # 10; 1 # 10; 4 # 10; 4 # 10; 0];
                      [1 # 10; 1 # 10; 4 # 10; 4 # 10; 1 # 100]]) (1 # 2)).
Proof.
  assert (Hz : sigmoid_rational 0 == 1 # 2) by reflexivity.
  assert (Hc : (4 < 5)%nat) by lia.
  destruct (@post_process_threshold_strict argsort_insertion sigmoid_rational
              argsort_insertion_perm Hz
              (mkTensor 5 [[1 # 10; 1 # 10; 4 # 10; 4 # 10; 0];
                           [1 # 10; 1 # 10; 4 # 10; 4 # 10; 1 # 100]])
              (1 # 2) Hc) as (_ & HF & _ & _ & Hzero & _).
  split.
  - apply Hzero; reflexivity.
  - apply HF. split; [simpl; auto | reflexivity].
Defined.

(** ** Classification of a component *)

Lemma py_int_floor q : 0 <= q -> py_int q = Qfloor q.
Proof.
  destruct q as [n d]. unfold Qle, py_int, Qfloor. simpl. intros H.
  apply Z.quot_div_nonneg; lia.
Qed.

Lemma py_int_negative q : q < 0 -> (py_int q <= 0)%Z /\ (Qfloor q < 0)%Z.
Proof.
  destruct q as [n d]. unfold Qlt, py_int, Qfloor. simpl. intros H.
  split.
  - replace n with (- (- n))%Z by lia. rewrite Z.quot_opp_l by lia.
    pose proof (Z.quot_pos (- n) (Z.pos d)). lia.
  - apply Z.div_lt_upper_bound; lia.
Qed.



(** ** The non-zero entries of a mask and their bounding rectangle *)

Lemma nonzero_row_In y x0 r y' x :
  In (y', x) (nonzero_row y x0 r)
  <-> y' = y /\ (x0 <= x)%nat
      /\ exists v, nth_error r (x - x0) = Some v /\ (0 < v)%Z.
Proof.
  revert x0. induction r as [|v r IH]; intros x0; simpl.
  - split; [contradiction|]. intros (_ & _ & v & E & _).
    destruct (x - x0)%nat; discriminate.
  - assert (Hrest : In (y', x) (nonzero_row y (S x0) r)
                    <-> y' = y /\ (S x0 <= x)%nat
                        /\ exists u, nth_error r (x - S x0) = Some u /\ (0 < u)%Z)
      by apply IH.
    assert (Hstep : forall u, (S x0 <= x)%nat ->
              nth_error (v :: r) (x - x0) = Some u
              <-> nth_error r (x - S x0) = Some u).
    { intros u Hx. replace (x - x0)%nat with (S (x - S x0)) by lia.
      reflexivity. }
    destruct (0 <? v)%Z eqn:Ev; simpl; rewrite Hrest.
    + apply Z.ltb_lt in Ev. split.
      * intros [E | (Ey & Hx & u & Hu & Hpos)].
        -- injection E as <- <-. split; [reflexivity|]. split; [lia|].
           exists v. rewrite Nat.sub_diag. auto.
        -- split; [exact Ey|]. split; [lia|]. exists u.
           split; [now apply Hstep | exact Hpos].
      * intros (Ey & Hx & u & Hu & Hpos).
        destruct (Nat.eq_dec x x0) as [-> | Hne].
        -- left. now subst.
        -- right. split; [exact Ey|]. split; [lia|]. exists u.
           split; [apply Hstep; [lia | exact Hu] | exact Hpos].
    + apply Z.ltb_ge in Ev. split.
      * intros (Ey & Hx & u & Hu & Hpos).
        split; [exact Ey|]. split; [lia|]. exists u.
        split; [now apply Hstep | exact Hpos].
      * intros (Ey & Hx & u & Hu & Hpos).
        destruct (Nat.eq_dec x x0) as [-> | Hne].
        -- rewrite Nat.sub_diag in Hu. simpl in Hu. injection Hu as <-. lia.
        -- split; [exact Ey|]. split; [lia|]. exists u.
           split; [apply Hstep; [lia | exact Hu] | exact Hpos].
Qed.

Lemma nonzero_from_In y0 m y x :
  In (y, x) (nonzero_from y0 m)
  <-> (y0 <= y)%nat
      /\ exists v, pixel m (y - y0) x = Some v /\ (0 < v)%Z.
Proof.
  revert y0. induction m as [|r m IH]; intros y0; simpl.
  - split; [contradiction|]. intros (_ & v & E & _). unfold pixel in E.
    destruct (y - y0)%nat; discriminate.
  - rewrite in_app_iff, nonzero_row_In, IH. rewrite Nat.sub_0_r. split.
    + intros [(-> & _ & v & Hv & Hpos) | (Hy & v & Hv & Hpos)].
      * split; [lia|]. exists v. unfold pixel. rewrite Nat.sub_diag. auto.
      * split; [lia|]. exists v. split; [|exact Hpos].
        unfold pixel in *. replace (y - y0)%nat with (S (y - S y0)) by lia.
        exact Hv.
    + intros (Hy & v & Hv & Hpos).
      destruct (Nat.eq_dec y y0) as [-> | Hne].
      * left. split; [reflexivity|]. split; [lia|]. exists v.
        unfold pixel in Hv. rewrite Nat.sub_diag in Hv. auto.
      * right. split; [lia|]. exists v. split; [|exact Hpos].
        unfold pixel in *. replace (y - y0)%nat with (S (y - S y0)) in Hv by lia.
        exact Hv.
Qed.

(** [np.where(mask > 0)] lists exactly the positive entries. *)
Lemma nonzero_In m y x :
  In (y, x) (nonzero m) <-> exists v, pixel m y x = Some v /\ (0 < v)%Z.
Proof.
  unfold nonzero. rewrite nonzero_from_In, Nat.sub_0_r.
  split; [intros [_ H]; exact H | intros H; split; [lia | exact H]].
Qed.

Lemma nonzero_empty m :
  (forall y x v, pixel m y x = Some v -> v = 0%Z) -> nonzero m = [].
Proof.
  intros H. destruct (nonzero m) as [|[y x] l] eqn:E; [reflexivity|].
  assert (Hin : In (y, x) (nonzero m)) by (rewrite E; simpl; auto).
  apply nonzero_In in Hin. destruct Hin as (v & Hv & Hpos).
  apply H in Hv. lia.
Qed.

Lemma fold_min_spec l : forall a,
  (fold_left Nat.min l a = a \/ In (fold_left Nat.min l a) l)
  /\ (fold_left Nat.min l a <= a)%nat
  /\ Forall (fun x => (fold_left Nat.min l a <= x)%nat) l.
Proof.
  induction l as [|b l IH]; intros a; simpl.
  - auto.
  - destruct (IH (Nat.min a b)) as (Hin & Hle & Hall).
    split; [|split].
    + destruct Hin as [E | Hin]; [|auto].
      rewrite E. destruct (Nat.min_dec a b) as [-> | ->]; auto.
    + lia.
    + constructor; [lia | exact Hall].
Qed.

Lemma fold_max_spec l : forall a,
  (fold_left Nat.max l a = a \/ In (fold_left Nat.max l a) l)
  /\ (a <= fold_left Nat.max l a)%nat
  /\ Forall (fun x => (x <= fold_left Nat.max l a)%nat) l.
Proof.
  induction l as [|b l IH]; intros a; simpl.
  - auto.
  - destruct (IH (Nat.max a b)) as (Hin & Hle & Hall).
    split; [|split].
    + destruct Hin as [E | Hin]; [|auto].
      rewrite E. destruct (Nat.max_dec a b) as [-> | ->]; auto.
    + lia.
    + constructor; [lia | exact Hall].
Qed.

Lemma np_min_spec l :
  l <> [] -> In (np_min l) l /\ Forall (fun x => (np_min l <= x)%nat) l.
Proof.
  destruct l as [|a l]; [congruence|]. intros _. simpl.
  destruct (fold_min_spec l a) as (Hin & Hle & Hall).
  split; [destruct Hin as [-> | Hin]; auto | constructor; assumption].
Qed.

Lemma np_max_spec l :
  l <> [] -> In (np_max l) l /\ Forall (fun x => (x <= np_max l)%nat) l.
Proof.
  destruct l as [|a l]; [congruence|]. intros _. simpl.
  destruct (fold_max_spec l a) as (Hin & Hle & Hall).
  split; [destruct Hin as [-> | Hin]; auto | constructor; assumption].
Qed.

(** The rectangle of lines 79-80 bounds the non-zero entries and touches
    one of them on each side. *)
Lemma mask_rect_tight m min_y max_y min_x max_x :
  nonzero m <> [] ->
  mask_rect m = (min_y, max_y, min_x, max_x) ->
  (forall y x, In (y, x) (nonzero m) ->
     (min_y <= y <= max_y)%nat /\ (min_x <= x <= max_x)%nat)
  /\ In min_y (map fst (nonzero m)) /\ In max_y (map fst (nonzero m))
  /\ In min_x (map snd (nonzero m)) /\ In max_x (map snd (nonzero m)).
Proof.
  intros Hne E. unfold mask_rect in E. injection E as <- <- <- <-.
  assert (Hy : map fst (nonzero m) <> [])
    by (destruct (nonzero m); [congruence | discriminate]).
  assert (Hx : map snd (nonzero m) <> [])
    by (destruct (nonzero m); [congruence | discriminate]).
  destruct (np_min_spec Hy) as [Imy Lmy], (np_max_spec Hy) as [IMy LMy].
  destruct (np_min_spec Hx) as [Imx Lmx], (np_max_spec Hx) as [IMx LMx].
  rewrite Forall_forall in Lmy, LMy, Lmx, LMx.
  split; [|auto].
  intros y x Hin.
  pose proof (in_map fst _ _ Hin) as Hfy. pose proof (in_map snd _ _ Hin) as Hfx.
  simpl in Hfy, Hfx.
  split; split; auto.
Qed.

(** ** [enhance_small_cells] without a region of interest *)

(** C7. When the accumulator mask has no non-zero entry,
    [enhance_small_cells] returns the input image itself. *)
Theorem enhance_small_cells_empty_mask (cv : Cv2) (img : image) (t : Q)
    (m : gray) :
  accumulator_mask cv img t = Ok m ->
  (forall y x v, pixel m y x = Some v -> v = 0%Z) ->
  enhance_small_cells cv img t = Ok img.
Proof.
  intros Hm Hzero. unfold enhance_small_cells. rewrite Hm. simpl bind.
  now rewrite (nonzero_empty m Hzero).
Qed.

(** C10. When the non-zero entries of the accumulator mask all lie in one
    row, or all in one column, [enhance_small_cells] returns the input image
    itself: the region of interest is not enhanced at all. *)
Theorem enhance_small_cells_thin_mask (cv : Cv2) (img : image) (t : Q)
    (m : gray) (k : nat) :
  accumulator_mask cv img t = Ok m ->
  nonzero m <> [] ->
  (forall y x, In (y, x) (nonzero m) -> y = k)
  \/ (forall y x, In (y, x) (nonzero m) -> x = k) ->
  (fst (fst (fst (mask_rect m))) = snd (fst (fst (mask_rect m)))
   \/ snd (fst (mask_rect m)) = snd (mask_rect m))
  /\ enhance_small_cells cv img t = Ok img.
Proof.
  intros Hm Hne Hthin.
  destruct (mask_rect m) as [[[min_y max_y] min_x] max_x] eqn:Er.
  destruct (mask_rect_tight Hne Er) as (_ & Imy & IMy & Imx & IMx).
  assert (Hdeg : min_y = max_y \/ min_x = max_x).
  { destruct Hthin as [Hrow | Hcol].
    - left.
      apply in_map_iff in Imy, IMy.
      destruct Imy as ([y1 x1] & E1 & H1), IMy as ([y2 x2] & E2 & H2).
      simpl in *. subst. rewrite (Hrow _ _ H1), (Hrow _ _ H2). reflexivity.
    - right.
      apply in_map_iff in Imx, IMx.
      destruct Imx as ([y1 x1] & E1 & H1), IMx as ([y2 x2] & E2 & H2).
      simpl in *. subst. rewrite (Hcol _ _ H1), (Hcol _ _ H2). reflexivity. }
  split; [exact Hdeg|].
  unfold enhance_small_cells. rewrite Hm. unfold bind at 1. rewrite Er.
  destruct (0 <? length (nonzero m))%nat; [|reflexivity].
  replace ((min_y <? max_y)%nat && (min_x <? max_x)%nat) with false;
    [reflexivity|].
  symmetry. apply andb_false_iff.
  destruct Hdeg as [-> | ->]; [left | right]; apply Nat.ltb_irrefl.
Qed.

(** ** Shapes of arrays *)

Unset Implicit Arguments.

Lemma list_eqb_eq {A} (eqb : A -> A -> bool) :
  (forall x y, eqb x y = true <-> x = y) ->
  forall a b, list_eqb eqb a b = true <-> a = b.
Proof.
  intros Heq. induction a as [|x a IH]; intros [|y b]; simpl;
    try (split; [discriminate | congruence]); [tauto|].
  rewrite andb_true_iff, Heq, IH. split.
  - intros [-> ->]. reflexivity.
  - intros E. injection E as -> ->. auto.
Qed.

Lemma same_shape2_iff {A B} (a : list (list A)) (b : list (list B)) :
  same_shape2 a b = true <-> map (@length A) a = map (@length B) b.
Proof. apply list_eqb_eq. apply Nat.eqb_eq. Qed.

Lemma same_shape3_iff {A B} (a : list (list (list A)))
    (b : list (list (list B))) :
  same_shape3 a b = true
  <-> map (map (@length A)) a = map (map (@length B)) b.
Proof. apply list_eqb_eq. apply list_eqb_eq. apply Nat.eqb_eq. Qed.

Lemma zip_with_same_length {A B C} (f : A -> B -> C) a b :
  length a = length b -> length (Np.zip_with f a b) = length a.
Proof. apply zip_with_length. Qed.

Lemma zip2_shape {A B C} (f : A -> B -> C) (a : list (list A))
    (b : list (list B)) :
  map (@length A) a = map (@length B) b ->
  map (@length C) (Np.zip_with (Np.zip_with f) a b) = map (@length A) a.
Proof.
  revert b. induction a as [|r a IH]; intros [|s b] H; simpl in *;
    try discriminate; [reflexivity|].
  injection H as Hr Hrest. f_equal; [now apply zip_with_length | now apply IH].
Qed.

Lemma zeros_like_shape g : map (@length Z) (zeros_like g) = map (@length Z) g.
Proof.
  unfold zeros_like. rewrite map_map. apply map_ext. intros r.
  apply length_map.
Qed.

Lemma gray_shape_length h w g : gray_shape h w g -> length g = h.
Proof.
  intros H. apply (f_equal (@length nat)) in H.
  now rewrite length_map, repeat_length in H.
Qed.

Lemma gray_shape_row h w g r : gray_shape h w g -> In r g -> length r = w.
Proof.
  intros H Hr. apply (in_map (@length Z)) in Hr. rewrite H in Hr.
  now apply repeat_spec in Hr.
Qed.

Lemma gray_shape_pixel h w (g : gray) y x v :
  gray_shape h w g -> pixel g y x = Some v -> (y < h)%nat /\ (x < w)%nat.
Proof.
  intros H E. unfold pixel in E.
  destruct (nth_error g y) as [r|] eqn:Er; [|discriminate].
  split.
  - rewrite <- (gray_shape_length h w g H). apply nth_error_Some. congruence.
  - rewrite <- (gray_shape_row h w g r H (nth_error_In _ _ Er)).
    apply nth_error_Some. congruence.
Qed.

Lemma image_shape_gray h w c img :
  image_shape h w c img -> map (@length (list Z)) img = repeat w h.
Proof.
  intros H. apply (f_equal (map (@length nat))) in H.
  rewrite map_map in H. rewrite map_repeat, repeat_length in H.
  rewrite <- H. apply map_ext. intros r. now rewrite length_map.
Qed.

Lemma image_shape_channels h w c img r p :
  image_shape h w c img -> In r img -> In p r -> length p = c.
Proof.
  intros H Hr Hp. apply (in_map (map (@length Z))) in Hr. rewrite H in Hr.
  apply repeat_spec in Hr. apply (in_map (@length Z)) in Hp.
  rewrite Hr in Hp. now apply repeat_spec in Hp.
Qed.

Lemma channel_shape h w c k img :
  image_shape h w c img -> gray_shape h w (channel k img).
Proof.
  intros H. unfold gray_shape, channel. rewrite map_map.
  rewrite <- (image_shape_gray h w c img H). apply map_ext. intros r.
  apply length_map.
Qed.

Lemma bitwise_or_shape h w a b :
  gray_shape h w a -> gray_shape h w b ->
  exists m, bitwise_or a b = Ok m /\ gray_shape h w m.
Proof.
  intros Ha Hb. unfold bitwise_or.
  assert (E : map (@length Z) a = map (@length Z) b)
    by (unfold gray_shape in *; congruence).
  rewrite (proj2 (same_shape2_iff a b) E).
  eexists. split; [reflexivity|].
  unfold gray_shape. now rewrite zip2_shape.
Qed.

Lemma mask_assign_shape h w a labels i v :
  gray_shape h w a -> gray_shape h w labels ->
  exists m, mask_assign a labels i v = Ok m /\ gray_shape h w m.
Proof.
  intros Ha Hb. unfold mask_assign.
  assert (E : map (@length Z) a = map (@length Z) labels)
    by (unfold gray_shape in *; congruence).
  rewrite (proj2 (same_shape2_iff a labels) E).
  eexists. split; [reflexivity|].
  unfold gray_shape. now rewrite zip2_shape.
Qed.

Lemma for_each_invariant {S} (P : S -> Prop) (body : S -> nat -> result S)
    (idx : list nat) : forall s,
  P s ->
  (forall s i, In i idx -> P s -> exists s', body s i = Ok s' /\ P s') ->
  exists s', for_each body s idx = Ok s' /\ P s'.
Proof.
  induction idx as [|i idx IH]; intros s Hs Hbody; simpl.
  - eauto.
  - destruct (Hbody s i (or_introl eq_refl) Hs) as (s1 & E1 & H1).
    rewrite E1. simpl. apply IH; [exact H1|].
    intros s2 j Hj. apply Hbody. now right.
Qed.

Section SmallCellShapes.

Variable cv : Cv2.
Hypothesis shapes : Cv2Shapes cv.
Variables h w : nat.

Lemma small_cells_body_shape g labels stats threshold mask i :
  gray_shape h w g -> gray_shape h w labels -> gray_shape h w mask ->
  (i < length stats)%nat ->
  exists mask',
    small_cells_body cv g labels stats threshold mask i = Ok mask'
    /\ gray_shape h w mask'.
Proof.
  intros Hg Hl Hm Hi. unfold small_cells_body.
  destruct (nth_error stats i) as [st|] eqn:Est;
    [|apply nth_error_None in Est; lia].
  unfold Np.getitem. rewrite Est. simpl bind.
  destruct (is_small threshold st); [|eauto].
  assert (Hz : gray_shape h w (zeros_like g))
    by (unfold gray_shape; now rewrite zeros_like_shape).
  destruct (mask_assign_shape h w _ _ (Z.of_nat i) 255%Z Hz Hl)
    as (cm & Ecm & Hcm).
  rewrite Ecm. simpl bind.
  apply bitwise_or_shape; [exact Hm|].
  now apply (dilate_shape shapes).
Qed.

Lemma accumulator_mask_shape img t :
  image_shape h w 3 img ->
  exists m, accumulator_mask cv img t = Ok m /\ gray_shape h w m.
Proof.
  intros Himg. unfold accumulator_mask.
  pose proof (gray_of_rgb shapes Himg) as Hg.
  set (g := cvtColor_RGB2GRAY cv img) in *.
  pose proof (threshold_shape shapes 255%Z 11%Z 2%Z Hg) as Hb.
  destruct (components_shape shapes Hb) as [Hl Hs].
  destruct (connectedComponentsWithStats cv (adaptiveThreshold cv g 255 11 2))
    as [[n labels] stats]. simpl in Hl, Hs.
  assert (Hz : gray_shape h w (zeros_like g))
    by (unfold gray_shape; now rewrite zeros_like_shape).
  destruct (for_each_invariant (gray_shape h w)
              (small_cells_body cv g labels stats
                 (cell_pixel_threshold (length img) (length (hd [] img)) t))
              (seq 1 (n - 1)) (zeros_like g) Hz) as (sm & Esm & Hsm).
  { intros s i Hi Hsh. apply small_cells_body_shape; try assumption.
    apply in_seq in Hi. lia. }
  rewrite Esm. simpl bind.
  assert (He : gray_shape h w (dilate cv (Canny cv g 50 150) (2, 2)%nat))
    by (apply (dilate_shape shapes), (canny_shape shapes), Hg).
  destruct (bitwise_or_shape h w _ _ Hsm He) as (cm & Ecm & Hcm).
  rewrite Ecm. simpl bind.
  eexists. split; [reflexivity|]. now apply (blur_shape shapes).
Qed.

End SmallCellShapes.

(** ** Slices *)

Lemma slice_map {A B} (f : A -> B) lo hi (a : list A) :
  map f (slice lo hi a) = slice lo hi (map f a).
Proof. unfold slice. now rewrite skipn_map, firstn_map. Qed.

Lemma splice_map {A B} (f : A -> B) lo hi (a v : list A) :
  map f (splice lo hi a v) = splice lo hi (map f a) (map f v).
Proof. unfold splice. now rewrite !map_app, firstn_map, skipn_map. Qed.

Lemma slice_length {A} lo hi (a : list A) :
  length (slice lo hi a) = Nat.min (hi - lo) (length a - lo).
Proof. unfold slice. now rewrite length_firstn, length_skipn. Qed.

(** Assigning a slice to itself changes nothing. *)
Lemma splice_slice {A} lo hi (a : list A) : splice lo hi a (slice lo hi a) = a.
Proof.
  unfold splice, slice.
  rewrite (Nat.add_comm lo), <- skipn_skipn.
  now rewrite firstn_skipn, firstn_skipn.
Qed.

Lemma slice_In {A} lo hi (a : list A) x : In x (slice lo hi a) -> In x a.
Proof.
  unfold slice. intros H.
  rewrite <- (firstn_skipn lo a). apply in_or_app. right.
  rewrite <- (firstn_skipn (hi - lo) (skipn lo a)). apply in_or_app. now left.
Qed.

Lemma slice_repeat {A} (v : A) n lo hi :
  (hi <= n)%nat -> slice lo hi (repeat v n) = repeat v (hi - lo).
Proof.
  intros Hhi.
  assert (E : slice lo hi (repeat v n)
              = repeat v (length (slice lo hi (repeat v n)))).
  { apply Forall_eq_repeat. apply Forall_forall. intros x Hx.
    apply slice_In in Hx. symmetry. now apply repeat_spec in Hx. }
  rewrite E, slice_length, repeat_length. f_equal. lia.
Qed.

Lemma slice2_shape h w c y0 y1 x0 x1 img :
  image_shape h w c img -> (y1 <= h)%nat -> (x1 <= w)%nat ->
  image_shape (y1 - y0) (x1 - x0) c (slice2 y0 y1 x0 x1 img).
Proof.
  intros H Hy Hx. unfold image_shape, slice2 in *.
  rewrite map_map.
  rewrite (map_ext _ (fun r => slice x0 x1 (map (@length Z) r)))
    by (intros r; apply slice_map).
  rewrite <- (map_map (map (@length Z)) (slice x0 x1)).
  rewrite slice_map, H, (slice_repeat _ _ _ _ Hy), map_repeat.
  now rewrite (slice_repeat _ _ _ _ Hx).
Qed.

Lemma nth_error_zip_with {A B C} (f : A -> B -> C) a b k :
  nth_error (Np.zip_with f a b) k
  = match nth_error a k, nth_error b k with
    | Some x, Some y => Some (f x y)
    | _, _ => None
    end.
Proof.
  revert b k. induction a as [|x a IH]; intros [|y b] [|k]; simpl;
    try reflexivity.
  - now destruct (nth_error a k).
  - apply IH.
Qed.

(** Outside [lo:hi] an assigned slice leaves the entries alone. *)
Lemma nth_error_splice_outside {A} lo hi (a v : list A) k :
  length v = length (slice lo hi a) ->
  (k < lo \/ lo + (hi - lo) <= k)%nat ->
  nth_error (splice lo hi a v) k = nth_error a k.
Proof.
  intros Hlen Hk.
  rewrite <- (splice_slice lo hi a) at 2. unfold splice.
  pose proof (length_firstn lo a) as Hpre.
  rewrite slice_length in Hlen.
  assert (Hs : length (slice lo hi a) = Nat.min (hi - lo) (length a - lo))
    by apply slice_length.
  destruct (Nat.lt_ge_cases k (length (firstn lo a))) as [Hin | Hout].
  - now rewrite !nth_error_app1 by exact Hin.
  - rewrite !(nth_error_app2 (firstn lo a)) by exact Hout.
    rewrite !nth_error_app2 by lia. f_equal. lia.
Qed.

(** Inside [lo:hi] the entries are those of the assigned value. *)
Lemma nth_error_splice_inside {A} lo hi (a v : list A) k :
  length v = length (slice lo hi a) ->
  (lo <= k < lo + length v)%nat ->
  nth_error (splice lo hi a v) k = nth_error v (k - lo).
Proof.
  intros Hlen Hk. unfold splice.
  pose proof (length_firstn lo a) as Hpre.
  rewrite slice_length in Hlen.
  rewrite nth_error_app2 by lia.
  rewrite nth_error_app1 by lia. f_equal. lia.
Qed.

Lemma splice_length {A} lo hi (a v : list A) :
  length v = length (slice lo hi a) -> length (splice lo hi a v) = length a.
Proof.
  intros Hlen. rewrite <- (splice_slice lo hi a) at 2. unfold splice.
  rewrite !length_app. lia.
Qed.

(** ** Assignment to a rectangle *)

Lemma spliced_rows_shape x0 x1 (rows_ : list (list (list Z))) : forall v,
  map (map (@length Z)) (map (slice x0 x1) rows_) = map (map (@length Z)) v ->
  map (map (@length Z)) (Np.zip_with (splice x0 x1) rows_ v)
  = map (map (@length Z)) rows_.
Proof.
  induction rows_ as [|r rows_ IH]; intros [|vr v] H; simpl in *;
    try discriminate; [reflexivity|].
  injection H as Hr Hrest. f_equal; [|now apply IH].
  rewrite splice_map, <- Hr, slice_map. apply splice_slice.
Qed.

(** The assignment keeps the shape of the array. *)
Lemma set_slice2_shape y0 y1 x0 x1 a v out :
  set_slice2 y0 y1 x0 x1 a v = Ok out ->
  map (map (@length Z)) out = map (map (@length Z)) a.
Proof.
  unfold set_slice2.
  destruct (same_shape3 (slice2 y0 y1 x0 x1 a) v) eqn:E; [|discriminate].
  intros H. injection H as <-. apply same_shape3_iff in E.
  rewrite splice_map, (spliced_rows_shape _ _ _ _ E), slice_map.
  apply splice_slice.
Qed.

(** The assignment leaves every entry outside the rectangle as it was. *)
Lemma set_slice2_outside y0 y1 x0 x1 a v out y x :
  set_slice2 y0 y1 x0 x1 a v = Ok out ->
  ~ ((y0 <= y < y1)%nat /\ (x0 <= x < x1)%nat) ->
  pixel out y x = pixel a y x.
Proof.
  unfold set_slice2.
  destruct (same_shape3 (slice2 y0 y1 x0 x1 a) v) eqn:E; [|discriminate].
  intros H Hout. injection H as <-. apply same_shape3_iff in E.
  unfold slice2 in E.
  set (S := slice y0 y1 a) in *.
  set (rows' := Np.zip_with (splice x0 x1) S v).
  assert (Hv : length v = length S).
  { apply (f_equal (@length _)) in E. now rewrite !length_map in E. }
  assert (Hrows : length rows' = length (slice y0 y1 a)).
  { unfold rows'. fold S. rewrite zip_with_length; congruence. }
  unfold pixel.
  destruct (Nat.lt_ge_cases y y0) as [Hlo | Hge];
    [now rewrite (nth_error_splice_outside _ _ _ _ _ Hrows) by lia|].
  destruct (Nat.lt_ge_cases y (y0 + length rows')) as [Hin | Hhi].
  - rewrite (nth_error_splice_inside _ _ _ _ _ Hrows) by lia.
    unfold rows'. rewrite nth_error_zip_with.
    assert (Hy1 : (y < y1)%nat) by (rewrite Hrows, slice_length in Hin; lia).
    assert (ES : nth_error S (y - y0) = nth_error a y).
    { unfold S, slice. rewrite nth_error_firstn.
      replace (y - y0 <? y1 - y0)%nat with true
        by (symmetry; apply Nat.ltb_lt; lia).
      rewrite nth_error_skipn. f_equal. lia. }
    rewrite ES.
    destruct (nth_error a y) as [r|] eqn:Er; [|reflexivity].
    destruct (nth_error v (y - y0)) as [vr|] eqn:Evr.
    + assert (Hvr : length vr = length (slice x0 x1 r)).
      { apply (f_equal (fun l => nth_error l (y - y0))) in E.
        rewrite !nth_error_map, ES, Evr in E. simpl in E.
        injection E as E. apply (f_equal (@length _)) in E.
        now rewrite !length_map in E. }
      apply nth_error_splice_outside; [exact Hvr|].
      rewrite slice_length in Hvr.
      destruct (Nat.lt_ge_cases x x0); [lia|].
      destruct (Nat.lt_ge_cases x x1); [exfalso; apply Hout; lia | lia].
    + exfalso. apply nth_error_None in Evr. subst S. lia.
  - destruct (Nat.le_gt_cases (y0 + (y1 - y0)) y) as [H | H].
    + now rewrite (nth_error_splice_outside _ _ _ _ _ Hrows) by lia.
    + pose proof (splice_length _ _ _ _ Hrows) as Hlen.
      rewrite Hrows, slice_length in Hhi.
      assert (Ha : nth_error a y = None) by (apply nth_error_None; lia).
      assert (Ho : nth_error (splice y0 y1 a rows') y = None)
        by (apply nth_error_None; lia).
      now rewrite Ha, Ho.
Qed.

(** ** Channels *)

Lemma split3_shape h w img :
  image_shape h w 3 img ->
  split3 img = Ok (channel 0 img, channel 1 img, channel 2 img).
Proof.
  intros H. unfold split3.
  replace (forallb (forallb (fun p => (length p =? 3)%nat)) img) with true;
    [reflexivity|].
  symmetry. apply forallb_forall. intros r Hr.
  apply forallb_forall. intros p Hp. apply Nat.eqb_eq.
  exact (image_shape_channels h w 3 img r p H Hr Hp).
Qed.

Lemma merged_row_shape (rl : list Z) : forall (rab : list (Z * Z)),
  map (@length Z) (Np.zip_with (fun x ab => [x; fst ab; snd ab]) rl rab)
  = repeat 3%nat (Nat.min (length rl) (length rab)).
Proof.
  induction rl as [|x rl IH]; intros [|ab rab]; simpl; try reflexivity.
  now rewrite IH.
Qed.

Lemma merged_shape w (l : list (list Z)) : forall (a b : list (list Z)) h,
  map (@length Z) l = repeat w h ->
  map (@length Z) a = repeat w h ->
  map (@length Z) b = repeat w h ->
  map (map (@length Z))
    (Np.zip_with
       (fun rl rab => Np.zip_with (fun x ab => [x; fst ab; snd ab]) rl rab)
       l (Np.zip_with (@combine Z Z) a b))
  = repeat (repeat 3%nat w) h.
Proof.
  induction l as [|rl l IH]; intros a b h Hl Ha Hb.
  - destruct h; [reflexivity | discriminate].
  - destruct h as [|h]; [discriminate|].
    destruct a as [|ra a]; [discriminate|].
    destruct b as [|rb b]; [discriminate|].
    simpl in *. injection Hl as Hrl Hl. injection Ha as Hra Ha.
    injection Hb as Hrb Hb.
    f_equal; [|now apply IH].
    rewrite merged_row_shape, length_combine. f_equal. lia.
Qed.

Lemma merge3_shape h w l a b :
  gray_shape h w l -> gray_shape h w a -> gray_shape h w b ->
  exists img, merge3 l a b = Ok img /\ image_shape h w 3 img.
Proof.
  intros Hl Ha Hb. unfold merge3.
  rewrite (proj2 (same_shape2_iff l a)) by (unfold gray_shape in *; congruence).
  rewrite (proj2 (same_shape2_iff l b)) by (unfold gray_shape in *; congruence).
  simpl. eexists. split; [reflexivity|].
  now apply merged_shape.
Qed.

Section EnhanceShapes.

Variable cv : Cv2.
Hypothesis shapes : Cv2Shapes cv.

Lemma enhance_roi_shape h w roi :
  image_shape h w 3 roi ->
  exists out, enhance_roi cv roi = Ok out /\ image_shape h w 3 out.
Proof.
  intros Hroi. unfold enhance_roi.
  pose proof (lab_of_rgb shapes Hroi) as Hlab.
  rewrite (split3_shape h w _ Hlab). simpl bind.
  destruct (merge3_shape h w
              (filter2D cv (clahe_apply cv 3 (3, 3)%nat
                              (channel 0 (cvtColor_RGB2LAB cv roi)))
                 sharpen_kernel)
              (channel 1 (cvtColor_RGB2LAB cv roi))
              (channel 2 (cvtColor_RGB2LAB cv roi)))
    as (merged & Em & Hm).
  - apply (filter_shape shapes), (clahe_shape shapes).
    now apply (channel_shape h w 3).
  - now apply (channel_shape h w 3).
  - now apply (channel_shape h w 3).
  - rewrite Em. simpl bind. eexists. split; [reflexivity|].
    now apply (rgb_of_lab shapes).
Qed.

(** [enhance_small_cells] returns an image of the input's shape that
    differs from the input only inside the rectangle of the mask. *)
Lemma enhance_small_cells_frame h w img t :
  image_shape h w 3 img ->
  exists m out,
    accumulator_mask cv img t = Ok m
    /\ gray_shape h w m
    /\ enhance_small_cells cv img t = Ok out
    /\ image_shape h w 3 out
    /\ forall y x,
         ~ ((fst (fst (fst (mask_rect m))) <= y <= snd (fst (fst (mask_rect m))))%nat
            /\ (snd (fst (mask_rect m)) <= x <= snd (mask_rect m))%nat) ->
         pixel out y x = pixel img y x.
Proof.
  intros Himg.
  destruct (accumulator_mask_shape cv shapes h w img t Himg) as (m & Em & Hm).
  exists m. unfold enhance_small_cells. rewrite Em. unfold bind at 1.
  destruct (0 <? length (nonzero m))%nat eqn:Hnz; [|exists img; auto].
  assert (Hne : nonzero m <> []).
  { apply Nat.ltb_lt in Hnz. intros E. rewrite E in Hnz. simpl in Hnz. lia. }
  destruct (mask_rect m) as [[[min_y max_y] min_x] max_x] eqn:Er.
  destruct ((min_y <? max_y)%nat && (min_x <? max_x)%nat);
    [|exists img; auto].
  destruct (mask_rect_tight Hne Er) as (_ & _ & IMy & _ & IMx).
  assert (Hy : (max_y + 1 <= h)%nat).
  { apply in_map_iff in IMy. destruct IMy as ([y x] & E & Hin).
    simpl in E. subst y. apply nonzero_In in Hin.
    destruct Hin as (v & Hv & _).
    destruct (gray_shape_pixel h w m max_y x v Hm Hv). lia. }
  assert (Hx : (max_x + 1 <= w)%nat).
  { apply in_map_iff in IMx. destruct IMx as ([y x] & E & Hin).
    simpl in E. subst x. apply nonzero_In in Hin.
    destruct Hin as (v & Hv & _).
    destruct (gray_shape_pixel h w m y max_x v Hm Hv). lia. }
  pose proof (slice2_shape h w 3 min_y (max_y + 1) min_x (max_x + 1) img
                Himg Hy Hx) as Hroi.
  destruct (enhance_roi_shape _ _ _ Hroi) as (roi' & Eroi & Hroi').
  rewrite Eroi. simpl bind.
  destruct (set_slice2 min_y (max_y + 1) min_x (max_x + 1) img roi')
    as [out| | |] eqn:Eset.
  - exists out. split; [reflexivity|]. split; [exact Hm|].
    split; [reflexivity|]. split.
    + unfold image_shape. rewrite (set_slice2_shape _ _ _ _ _ _ _ Eset).
      exact Himg.
    + intros y x Hout. simpl in Hout.
      apply (set_slice2_outside _ _ _ _ _ _ _ y x Eset). lia.
  - unfold set_slice2 in Eset.
    rewrite (proj2 (same_shape3_iff _ _)) in Eset; [discriminate|].
    unfold image_shape in Hroi, Hroi'. congruence.
  - unfold set_slice2 in Eset.
    rewrite (proj2 (same_shape3_iff _ _)) in Eset; [discriminate|].
    unfold image_shape in Hroi, Hroi'. congruence.
  - unfold set_slice2 in Eset.
    rewrite (proj2 (same_shape3_iff _ _)) in Eset; [discriminate|].
    unfold image_shape in Hroi, Hroi'. congruence.
Qed.

End EnhanceShapes.

Lemma pixel_In_concat {A} (a : list (list A)) y x v :
  pixel a y x = Some v -> In v (concat a).
Proof.
  unfold pixel. destruct (nth_error a y) as [r|] eqn:Er; [|discriminate].
  intros E. apply in_concat. exists r.
  split; [exact (nth_error_In _ _ Er) | exact (nth_error_In _ _ E)].
Qed.

(** ** The instance [Toy.cv] keeps shapes *)

Lemma map2_shape (f : Z -> Z) (g : gray) :
  map (@length Z) (map (map f) g) = map (@length Z) g.
Proof.
  rewrite map_map. apply map_ext. intros r. apply length_map.
Qed.

Lemma toy_shapes : Cv2Shapes Toy.cv.
Proof.
  constructor; simpl; intros; try assumption.
  - now apply (channel_shape h w 3).
  - unfold gray_shape, Toy.threshold_inv in *. now rewrite map2_shape.
  - unfold Toy.components.
    destruct (mask_rect g) as [[[min_y max_y] min_x] max_x].
    destruct (0 <? Z.of_nat (length (nonzero g)))%Z; simpl;
      (split; [|reflexivity]);
      unfold gray_shape in *; now rewrite map2_shape.
  - unfold gray_shape, Toy.edges in *. now rewrite map2_shape.
  - unfold gray_shape, Toy.brighten in *. now rewrite map2_shape.
Qed.

(** ** The frame of [enhance_small_cells] *)

(** C6. [enhance_small_cells] returns an image in which every pixel outside
    the bounding rectangle of the non-zero entries of the accumulator mask
    equals the input pixel; the rectangle contains every non-zero entry of
    the mask and touches one on each of its four sides. *)
Theorem enhance_small_cells_outside_rect (cv : Cv2) (h w : nat) (img : image)
    (t : Q) :
  Cv2Shapes cv ->
  image_shape h w 3 img ->
  exists m out,
    accumulator_mask cv img t = Ok m
    /\ enhance_small_cells cv img t = Ok out
    /\ forall min_y max_y min_x max_x,
         mask_rect m = (min_y, max_y, min_x, max_x) ->
         (forall y x v, pixel m y x = Some v -> (0 < v)%Z ->
            (min_y <= y <= max_y)%nat /\ (min_x <= x <= max_x)%nat)
         /\ (nonzero m <> [] ->
             (exists x, In (min_y, x) (nonzero m))
             /\ (exists x, In (max_y, x) (nonzero m))
             /\ (exists y, In (y, min_x) (nonzero m))
             /\ (exists y, In (y, max_x) (nonzero m)))
         /\ (forall y x,
               ~ ((min_y <= y <= max_y)%nat /\ (min_x <= x <= max_x)%nat) ->
               pixel out y x = pixel img y x).
Proof.
  intros shapes Himg.
  destruct (enhance_small_cells_frame cv shapes h w img t Himg)
    as (m & out & Em & _ & Eout & _ & Hframe).
  exists m, out. split; [exact Em|]. split; [exact Eout|].
  intros min_y max_y min_x max_x Er. rewrite Er in Hframe. simpl in Hframe.
  split; [|split; [|exact Hframe]].
  - intros y x v Hv Hpos.
    assert (Hin : In (y, x) (nonzero m)) by (apply nonzero_In; eauto).
    assert (Hne : nonzero m <> []) by (intros E; rewrite E in Hin; contradiction).
    destruct (mask_rect_tight Hne Er) as (Hb & _). now apply Hb.
  - intros Hne.
    destruct (mask_rect_tight Hne Er) as (_ & Imy & IMy & Imx & IMx).
    apply in_map_iff in Imy, IMy, Imx, IMx.
    destruct Imy as ([y1 x1] & E1 & H1), IMy as ([y2 x2] & E2 & H2),
      Imx as ([y3 x3] & E3 & H3), IMx as ([y4 x4] & E4 & H4).
    simpl in *. subst. repeat split; eexists; eassumption.
Qed.

Lemma enhance_small_cells_outside_rect_witness :
  exists out,
    enhance_small_cells Toy.cv Toy.img_blob (5 # 1000) = Ok out
    /\ pixel out 0 0 = pixel Toy.img_blob 0 0
    /\ pixel out 1 0 = pixel Toy.img_blob 1 0
    /\ pixel out 0 2 = pixel Toy.img_blob 0 2.
Proof.
  destruct (enhance_small_cells_outside_rect Toy.cv 3 3 Toy.img_blob (5 # 1000)
              toy_shapes eq_refl) as (m & out & Em & Eout & Hrect).
  injection Em as <-.
  destruct (Hrect 1%nat 2%nat 1%nat 2%nat eq_refl) as (_ & _ & Hframe).
  exists out. split; [exact Eout|].
  repeat split; apply Hframe; lia.
Defined.

Lemma enhance_small_cells_empty_mask_witness :
  enhance_small_cells Toy.cv Toy.img_dark (5 # 1000) = Ok Toy.img_dark.
Proof.
  apply (@enhance_small_cells_empty_mask Toy.cv Toy.img_dark (5 # 1000)
           [[0; 0; 0]; [0; 0; 0]; [0; 0; 0]]%Z).
  - reflexivity.
  - intros y x v E. apply pixel_In_concat in E. simpl in E.
    repeat (destruct E as [E | E]; [now symmetry|]). contradiction.
Defined.

Lemma enhance_small_cells_thin_mask_witness :
  enhance_small_cells Toy.cv Toy.img_row (5 # 1000) = Ok Toy.img_row.
Proof.
  apply (@enhance_small_cells_thin_mask Toy.cv Toy.img_row (5 # 1000)
           [[0; 0; 0]; [0; 255; 255]; [0; 0; 0]]%Z 1%nat).
  - reflexivity.
  - discriminate.
  - left. intros y x Hin. simpl in Hin.
    destruct Hin as [E | [E | []]]; now injection E.
Defined.

(** ** Shapes through [clahe.py] and [enhance_image] *)

Lemma set_channel_row_shape (i w : nat) (r : list (list Z)) : forall vr,
  (i < 3)%nat ->
  map (@length Z) r = repeat 3%nat w -> length vr = w ->
  map (@length Z)
    (Np.zip_with (fun p x => firstn i p ++ x :: skipn (S i) p) r vr)
  = repeat 3%nat w.
Proof.
  revert w. induction r as [|p r IH]; intros w vr Hi Hr Hv.
  - destruct w; [reflexivity | discriminate].
  - destruct w as [|w]; [discriminate|].
    destruct vr as [|x vr]; [discriminate|].
    cbn [Np.zip_with map repeat length] in *.
    injection Hr as Hp Hr. injection Hv as Hv.
    f_equal; [|now apply IH].
    rewrite length_app, length_firstn. cbn [length].
    rewrite length_skipn. lia.
Qed.

Lemma set_channel_rows_shape (i w : nat) (img : image) : forall v h,
  (i < 3)%nat ->
  image_shape h w 3 img -> gray_shape h w v ->
  image_shape h w 3
    (Np.zip_with
       (Np.zip_with (fun p x => firstn i p ++ x :: skipn (S i) p)) img v).
Proof.
  unfold image_shape, gray_shape.
  induction img as [|r img IH]; intros v h Hi Himg Hv.
  - destruct h; [reflexivity | discriminate].
  - destruct h as [|h]; [discriminate|].
    destruct v as [|vr v]; [discriminate|].
    simpl in *. injection Himg as Hr Himg. injection Hv as Hvr Hv.
    f_equal; [now apply set_channel_row_shape | now apply IH].
Qed.

Lemma channels_present h w i img :
  (i < 3)%nat -> image_shape h w 3 img ->
  forallb (forallb (fun p => (i <? length p)%nat)) img = true.
Proof.
  intros Hi H. apply forallb_forall. intros r Hr.
  apply forallb_forall. intros p Hp. apply Nat.ltb_lt.
  rewrite (image_shape_channels h w 3 img r p H Hr Hp). exact Hi.
Qed.

Section EnhanceImageShapes.

Variable cv : Cv2.
Hypothesis shapes : Cv2Shapes cv.
Variables h w : nat.

Lemma apply_clahe_shape img clip grid :
  image_shape h w 3 img ->
  exists out, apply_clahe cv img clip grid = Ok out /\ image_shape h w 3 out.
Proof.
  intros Himg. unfold apply_clahe.
  pose proof (lab_of_rgb shapes Himg) as Hlab.
  rewrite (split3_shape h w _ Hlab). simpl bind.
  destruct (merge3_shape h w
              (clahe_apply cv clip grid (channel 0 (cvtColor_RGB2LAB cv img)))
              (channel 1 (cvtColor_RGB2LAB cv img))
              (channel 2 (cvtColor_RGB2LAB cv img)))
    as (merged & Em & Hm).
  - apply (clahe_shape shapes). now apply (channel_shape h w 3).
  - now apply (channel_shape h w 3).
  - now apply (channel_shape h w 3).
  - rewrite Em. simpl bind. eexists. split; [reflexivity|].
    now apply (rgb_of_lab shapes).
Qed.

Lemma adaptive_clahe_shape img low lo hi :
  image_shape h w 3 img ->
  exists out,
    adaptive_clahe cv img low lo hi = Ok out /\ image_shape h w 3 out.
Proof. intros Himg. unfold adaptive_clahe. now apply apply_clahe_shape. Qed.

Lemma guided_channel_shape radius eps img i :
  (i < 3)%nat -> image_shape h w 3 img ->
  exists out,
    guided_channel cv radius eps img i = Ok out /\ image_shape h w 3 out.
Proof.
  intros Hi Himg. unfold guided_channel, get_channel, set_channel.
  rewrite (channels_present h w i img Hi Himg). simpl bind.
  pose proof (guided_shape shapes radius eps (channel_shape h w 3 i img Himg))
    as Hg.
  rewrite (proj2 (same_shape2_iff _ _)).
  - eexists. split; [reflexivity|]. now apply set_channel_rows_shape.
  - rewrite (image_shape_gray h w 3 img Himg). symmetry. exact Hg.
Qed.

(** The method dispatch of lines 54-79. *)
Lemma enhance_method_shape img (method : String.string) params :
  image_shape h w 3 img ->
  let enhanced :=
    if String.eqb method "adaptive"%string then
      Ok (enhance_microscopy_image cv img)
    else if String.eqb method "clahe"%string then
      apply_clahe cv img (get (clip_limit_ params) 2)
        (get (tile_grid_size_ params) (8, 8)%nat)
    else if String.eqb method "adaptive_clahe"%string then
      adaptive_clahe cv img (get (low_contrast_threshold_ params) 30)
        (get (min_clip_limit_ params) 1) (get (max_clip_limit_ params) 4)
    else if String.eqb method "guided"%string then
      for_each
        (guided_channel cv (get (radius_ params) 2%Z)
           (get (eps_ params) (2 # 10)))
        img (seq 0 3)
    else if String.eqb method "basic"%string then
      Ok (convertScaleAbs cv img (get (alpha_ params) (12 # 10))
            (get (beta_ params) 10))
    else ValueError in
  (In method ["adaptive"; "clahe"; "adaptive_clahe"; "guided"; "basic"]%string
   /\ exists e, enhanced = Ok e /\ image_shape h w 3 e)
  \/ (~ In method ["adaptive"; "clahe"; "adaptive_clahe"; "guided"; "basic"]%string
      /\ enhanced = ValueError).
Proof.
  intros Himg enhanced. unfold enhanced. clear enhanced.
  destruct (String.eqb method "adaptive") eqn:E1.
  { apply String.eqb_eq in E1. left. split; [simpl; auto|].
    eexists. split; [reflexivity|]. now apply (adaptive_shape shapes). }
  destruct (String.eqb method "clahe") eqn:E2.
  { apply String.eqb_eq in E2. left. split; [simpl; auto|].
    now apply apply_clahe_shape. }
  destruct (String.eqb method "adaptive_clahe") eqn:E3.
  { apply String.eqb_eq in E3. left. split; [simpl; auto|].
    now apply adaptive_clahe_shape. }
  destruct (String.eqb method "guided") eqn:E4.
  { apply String.eqb_eq in E4. left. split; [simpl; auto 6|].
    apply (for_each_invariant (image_shape h w 3)); [exact Himg|].
    intros s i Hi Hs. apply guided_channel_shape; [|exact Hs].
    apply in_seq in Hi. lia. }
  destruct (String.eqb method "basic") eqn:E5.
  { apply String.eqb_eq in E5. left. split; [simpl; auto 7|].
    eexists. split; [reflexivity|]. now apply (scale_shape shapes). }
  right. split; [|reflexivity].
  apply String.eqb_neq in E1, E2, E3, E4, E5.
  simpl. intros [H | [H | [H | [H | [H | []]]]]]; congruence.
Qed.

(** C9. Every enhancement operation keeps the shape of a three-channel
    image: [apply_clahe], [adaptive_clahe] and [enhance_small_cells] return
    an image of the input's height, width and channel count, and so does
    [enhance_image] for each of its methods, with or without small-cell
    enhancement and denoising; any other method name is rejected. *)
Theorem enhance_image_shape (img : image) (method : String.string)
    (small_cell_enhancement : bool) (denoise_level : Z)
    (params : option Params) :
  image_shape h w 3 img ->
  (forall clip grid, exists out,
      apply_clahe cv img clip grid = Ok out /\ image_shape h w 3 out)
  /\ (forall low lo hi, exists out,
        adaptive_clahe cv img low lo hi = Ok out /\ image_shape h w 3 out)
  /\ (forall t, exists out,
        enhance_small_cells cv img t = Ok out /\ image_shape h w 3 out)
  /\ (In method ["adaptive"; "clahe"; "adaptive_clahe"; "guided"; "basic"]%string ->
      exists out,
        enhance_image cv img method small_cell_enhancement denoise_level params
        = Ok out
        /\ image_shape h w 3 out)
  /\ (~ In method ["adaptive"; "clahe"; "adaptive_clahe"; "guided"; "basic"]%string ->
      enhance_image cv img method small_cell_enhancement denoise_level params
      = ValueError)
  /\ (forall out,
        enhance_image cv img method small_cell_enhancement denoise_level params
        = Ok out ->
        image_shape h w 3 out).
Proof.
  intros Himg.
  assert (Hsmall : forall e t, image_shape h w 3 e ->
            exists out, enhance_small_cells cv e t = Ok out
                        /\ image_shape h w 3 out).
  { intros e t He.
    destruct (enhance_small_cells_frame cv shapes h w e t He)
      as (m & out & _ & _ & Eout & Hout & _).
    eauto. }
  split; [intros; now apply apply_clahe_shape|].
  split; [intros; now apply adaptive_clahe_shape|].
  split; [intros; now apply Hsmall|].
  assert (Hrun :
    (In method ["adaptive"; "clahe"; "adaptive_clahe"; "guided"; "basic"]%string
     /\ exists out,
          enhance_image cv img method small_cell_enhancement denoise_level params
          = Ok out /\ image_shape h w 3 out)
    \/ (~ In method ["adaptive"; "clahe"; "adaptive_clahe"; "guided"; "basic"]%string
        /\ enhance_image cv img method small_cell_enhancement denoise_level params
           = ValueError)).
  { unfold enhance_image.
    destruct (enhance_method_shape img method (get params no_params) Himg)
      as [(Hin & e & Ee & He) | (Hnin & Ee)].
    - left. split; [exact Hin|]. rewrite Ee. simpl bind.
      assert (Hstage : exists e2,
                (if small_cell_enhancement
                 then enhance_small_cells cv e
                        (get (cell_size_threshold_ (get params no_params))
                           (5 # 1000))
                 else Ok e) = Ok e2 /\ image_shape h w 3 e2).
      { destruct small_cell_enhancement; [now apply Hsmall | eauto]. }
      destruct Hstage as (e2 & Ee2 & He2). rewrite Ee2. simpl bind.
      destruct (0 <? denoise_level)%Z.
      + eexists. split; [reflexivity|]. now apply (denoise_shape shapes).
      + eauto.
    - right. split; [exact Hnin|]. now rewrite Ee. }
  split; [|split].
  - intros Hin. destruct Hrun as [(_ & H) | (Hnin & _)];
      [exact H | contradiction].
  - intros Hnin. destruct Hrun as [(Hin & _) | (_ & H)];
      [contradiction | exact H].
  - intros out Eout. destruct Hrun as [(_ & o & Eo & Ho) | (_ & Ev)].
    + rewrite Eo in Eout. injection Eout as <-. exact Ho.
    + rewrite Ev in Eout. discriminate.
Qed.

End EnhanceImageShapes.

Lemma enhance_image_shape_witness :
  exists out,
    enhance_image Toy.cv Toy.img_blob "adaptive" true 5 None = Ok out
    /\ image_shape 3 3 3 out.
Proof.
  destruct (enhance_image_shape Toy.cv toy_shapes 3 3 Toy.img_blob "adaptive"
              true 5%Z None eq_refl) as (_ & _ & _ & Hrun & _).
  apply Hrun. simpl. auto.
Defined.

(** C9 fails for an image with a single channel: on a 2 x 2 x 1 image the
    method ["guided"] never returns an image, whatever the library calls
    do; line 72 raises [IndexError] at the second channel when the filter
    keeps the shape of the first. *)
Lemma enhance_image_single_channel_raises :
  image_shape 2 2 1 [[[5]; [7]]; [[9]; [11]]]%Z
  /\ enhance_image Toy.cv [[[5]; [7]]; [[9]; [11]]]%Z "guided" false 0 None
     = IndexError
  /\ (forall (cv : Cv2) (out : image),
        enhance_image cv [[[5]; [7]]; [[9]; [11]]]%Z "guided" false 0 None
        <> Ok out).
Proof.
  split; [reflexivity|]. split; [reflexivity|].
  intros cv out. unfold enhance_image.
  cbn [String.eqb Ascii.eqb Bool.eqb andb]. cbn [seq for_each].
  unfold guided_channel at 1. cbn [get_channel forallb length Nat.ltb Nat.leb andb bind].
  set (v := guided_filter cv _ _ _ _). clearbody v.
  unfold set_channel at 1. cbn [forallb length Nat.ltb Nat.leb andb].
  destruct (same_shape2 [[[5]; [7]]; [[9]; [11]]]%Z v) eqn:E;
    [|simpl; discriminate].
  apply same_shape2_iff in E. simpl in E.
  destruct v as [|[|a [|b [|? ?]]] [|[|c [|d [|? ?]]] [|? ?]]];
    simpl; discriminate.
Qed.

(** * Further properties of [detect.py] *)

(** ** [nms] on arrays of different lengths *)

Lemma take_out_of_range {A} (a : list A) (idx : list nat) :
  Exists (fun j => (length a <= j)%nat) idx -> Np.take a idx = IndexError.
Proof.
  induction 1 as [j idx Hj | j idx _ IH]; simpl.
  - now rewrite (getitem_out a Hj).
  - unfold Np.getitem. destruct (nth_error a j); simpl; [|reflexivity].
    now rewrite IH.
Qed.

Lemma nms_step_out_of_range (x1 y1 x2 y2 areas : list Q) t i rest :
  (length x1 <= i)%nat \/ Exists (fun j => (length x1 <= j)%nat) rest ->
  nms_step x1 y1 x2 y2 areas t (i :: rest) i rest = IndexError.
Proof.
  intros [Hi | Hrest]; unfold nms_step.
  - now rewrite (getitem_out x1 Hi).
  - unfold Np.getitem at 1. destruct (nth_error x1 i); simpl; [|reflexivity].
    now rewrite (take_out_of_range x1 rest Hrest).
Qed.

Section NmsLengths.

Variable argsort : list Q -> list nat.
Hypothesis argsort_perm : argsort_permutes argsort.

(** X1. With no box [nms] returns the empty list whatever the scores are; with
    at most as many scores as boxes it runs the greedy passes over the
    scored boxes only; with more scores than boxes it raises [IndexError]. *)
Theorem nms_length_mismatch (boxes : list Box) (scores : list Q) (t : Q) :
  (length boxes = 0%nat -> nms argsort boxes scores t = Ok [])
  /\ ((0 < length boxes)%nat -> (length scores <= length boxes)%nat ->
      nms argsort boxes scores t
      = Ok (greedy_nms boxes t (rev (argsort scores)))
      /\ Forall (fun i => (i < length scores)%nat)
           (greedy_nms boxes t (rev (argsort scores))))
  /\ ((0 < length boxes < length scores)%nat ->
      nms argsort boxes scores t = IndexError).
Proof.
  split; [|split].
  - intros H0. unfold nms. now rewrite H0.
  - intros Hpos Hle. split.
    + unfold nms.
      replace (length boxes =? 0)%nat with false
        by (symmetry; apply Nat.eqb_neq; lia).
      rewrite areas_vectorised.
      rewrite nms_loop_greedy; [reflexivity | lia |].
      apply (Forall_impl _ (P := fun j => (j < length scores)%nat));
        [intros; lia | now apply order_indices].
    + apply greedy_nms_Forall. now apply order_indices.
  - intros [Hpos Hlt]. unfold nms.
    replace (length boxes =? 0)%nat with false
      by (symmetry; apply Nat.eqb_neq; lia).
    assert (Hin : In (length boxes) (rev (argsort scores))).
    { apply in_rev. rewrite rev_involutive.
      apply (Permutation_in _ (Permutation_sym (argsort_perm scores))).
      apply in_seq. lia. }
    destruct (rev (argsort scores)) as [|i rest]; [contradiction|].
    cbn [length nms_loop].
    rewrite nms_step_out_of_range; [reflexivity|].
    rewrite length_map.
    destruct Hin as [<- | Hin]; [left; lia|].
    right. apply Exists_exists. exists (length boxes). split; [exact Hin | lia].
Qed.

End NmsLengths.

Lemma nms_length_mismatch_witness :
  nms argsort_insertion [mkBox 0 0 1 1] [1 # 2; 1 # 3] (1 # 2) = IndexError
  /\ nms argsort_insertion [mkBox 0 0 1 1; mkBox 5 5 6 6] [1 # 2] (1 # 2)
     = Ok [0%nat].
Proof.
  destruct (nms_length_mismatch argsort_insertion argsort_insertion_perm
              [mkBox 0 0 1 1] [1 # 2; 1 # 3] (1 # 2)) as (_ & _ & Hmore).
  destruct (nms_length_mismatch argsort_insertion argsort_insertion_perm
              [mkBox 0 0 1 1; mkBox 5 5 6 6] [1 # 2] (1 # 2))
    as (_ & Hfewer & _).
  split.
  - apply Hmore. simpl. lia.
  - destruct Hfewer as [E _]; [simpl; lia | simpl; lia |].
    rewrite E. reflexivity.
Defined.

(** ** What the greedy passes keep and drop *)

(** A dropped index was suppressed by a kept index listed before it. *)
Lemma greedy_nms_dropped (R : nat -> nat -> Prop) boxes t order :
  StronglySorted R order ->
  forall j, In j order -> ~ In j (greedy_nms boxes t order) ->
  exists i, In i (greedy_nms boxes t order) /\ R i j
            /\ survives boxes t i j = false.
Proof.
  funelim (greedy_nms boxes t order); intros HS j Hj Hnot;
    [contradiction|].
  simp greedy_nms in *.
  apply StronglySorted_inv in HS. destruct HS as [HS Hi].
  destruct Hj as [<- | Hj]; [exfalso; apply Hnot; simpl; auto|].
  destruct (survives boxes iou_threshold i j) eqn:Es.
  - assert (HS' : StronglySorted R (filter (survives boxes iou_threshold i) rest))
      by now apply StronglySorted_filter.
    destruct (H R HS' j) as (k & Hk & Rk & Sk).
    + apply filter_In. auto.
    + intros Hin. apply Hnot. simpl. auto.
    + exists k. split; [simpl; auto | auto].
  - exists i. rewrite Forall_forall in Hi. split; [simpl; auto | auto].
Qed.

Section NmsSelection.

Variable argsort : list Q -> list nat.
Hypothesis argsort_perm : argsort_permutes argsort.
Hypothesis argsort_sorted : argsort_ascending argsort.

(** X2. For at least one box [nms] keeps at least one index, and the first
    index kept is a box of maximal score. *)
Theorem nms_first_is_best (boxes : list Box) (scores : list Q) (t : Q) :
  length boxes = length scores -> (0 < length boxes)%nat ->
  exists i rest,
    nms argsort boxes scores t = Ok (i :: rest)
    /\ (i < length boxes)%nat
    /\ forall j, (j < length boxes)%nat ->
         score_at scores j <= score_at scores i.
Proof.
  intros Hlen Hpos.
  rewrite (nms_greedy argsort_perm boxes scores t Hlen).
  pose proof (order_descending argsort_sorted scores) as Hdesc.
  pose proof (order_indices argsort_perm scores) as Hidx.
  assert (Hall : forall j, (j < length boxes)%nat ->
                   In j (rev (argsort scores))).
  { intros j Hj. apply in_rev. rewrite rev_involutive.
    apply (Permutation_in _ (Permutation_sym (argsort_perm scores))).
    apply in_seq. lia. }
  destruct (rev (argsort scores)) as [|i rest];
    [exfalso; exact (Hall 0%nat Hpos)|].
  simp greedy_nms. eexists. eexists. split; [reflexivity|].
  apply StronglySorted_inv in Hdesc. destruct Hdesc as [_ Hi].
  rewrite Forall_forall in Hi, Hidx.
  split; [rewrite Hlen; apply Hidx; simpl; auto|].
  intros j Hj. destruct (Hall j Hj) as [<- | Hin];
    [apply Qle_refl | now apply Hi].
Qed.

(** X3. Nothing is dropped without a reason: every input index that [nms] does
    not return fails the test [iou <= iou_threshold] against some returned
    index whose score is at least as high. *)
Theorem nms_dropped_has_suppressor (boxes : list Box) (scores : list Q)
    (t : Q) :
  length boxes = length scores ->
  exists keep,
    nms argsort boxes scores t = Ok keep
    /\ forall j, (j < length boxes)%nat -> ~ In j keep ->
         exists i, In i keep
                   /\ score_at scores j <= score_at scores i
                   /\ survives boxes t i j = false.
Proof.
  intros Hlen. eexists.
  split; [exact (nms_greedy argsort_perm boxes scores t Hlen)|].
  intros j Hj Hnot.
  apply (greedy_nms_dropped
           (fun a b => score_at scores b <= score_at scores a));
    [now apply order_descending | | exact Hnot].
  apply in_rev. rewrite rev_involutive.
  apply (Permutation_in _ (Permutation_sym (argsort_perm scores))).
  apply in_seq. lia.
Qed.

End NmsSelection.

Lemma nms_first_is_best_witness :
  exists i rest,
    nms argsort_insertion
      [mkBox 0 0 10 10; mkBox 1 1 11 11; mkBox 50 50 60 60]
      [9 # 10; 8 # 10; 95 # 100] (1 # 2) = Ok (i :: rest)
    /\ score_at [9 # 10; 8 # 10; 95 # 100] 0 <= score_at [9 # 10; 8 # 10; 95 # 100] i.
Proof.
  destruct (nms_first_is_best argsort_insertion argsort_insertion_perm
              argsort_insertion_sorted
              [mkBox 0 0 10 10; mkBox 1 1 11 11; mkBox 50 50 60 60]
              [9 # 10; 8 # 10; 95 # 100] (1 # 2) eq_refl)
    as (i & rest & E & _ & Hbest); [simpl; lia|].
  exists i, rest. split; [exact E|]. apply Hbest. simpl. lia.
Defined.

Lemma nms_dropped_has_suppressor_witness :
  exists i,
    score_at [9 # 10; 8 # 10; 95 # 100] 1 <= score_at [9 # 10; 8 # 10; 95 # 100] i
    /\ survives [mkBox 0 0 10 10; mkBox 1 1 11 11; mkBox 50 50 60 60]
         (1 # 2) i 1 = false.
Proof.
  destruct (nms_dropped_has_suppressor argsort_insertion
              argsort_insertion_perm argsort_insertion_sorted
              [mkBox 0 0 10 10; mkBox 1 1 11 11; mkBox 50 50 60 60]
              [9 # 10; 8 # 10; 95 # 100] (1 # 2) eq_refl)
    as (keep & E & Hdrop).
  rewrite (nms_greedy argsort_insertion_perm) in E by reflexivity.
  injection E as <-.
  destruct (Hdrop 1%nat) as (i & _ & Hs & Hi).
  - simpl. lia.
  - cbv. intros [H | [H | []]]; discriminate.
  - exists i. split; assumption.
Defined.

(** ** The range of the IoU *)

Lemma inter_le_area a b :
  well_formed a -> well_formed b ->
  inter_area a b <= area a /\ inter_area a b <= area b.
Proof.
  intros [Hax Hay] [Hbx Hby]. unfold area, inter_area.
  destruct (overlap_le (bx1 a) (bx1 b) (bx2 a) (bx2 b)) as [Hwa Hwb].
  destruct (overlap_le (by1 a) (by1 b) (by2 a) (by2 b)) as [Hha Hhb].
  destruct (clamp_cases (Qmin (bx2 a) (bx2 b) - Qmax (bx1 a) (bx1 b)))
    as [[Ew Hw]|[Ew Hw]];
  destruct (clamp_cases (Qmin (by2 a) (by2 b) - Qmax (by1 a) (by1 b)))
    as [[Eh Hh]|[Eh Hh]];
  rewrite Ew, Eh;
  generalize dependent (Qmin (bx2 a) (bx2 b) - Qmax (bx1 a) (bx1 b));
  generalize dependent (Qmin (by2 a) (by2 b) - Qmax (by1 a) (by1 b));
  intros H W; intros; split; nra.
Qed.

Lemma positive_extent_well_formed b : positive_extent b -> well_formed b.
Proof. intros [Hx Hy]. split; lra. Qed.

Lemma iou_range a b :
  well_formed a -> well_formed b -> ~ iou_denominator a b == 0 ->
  exists q, iou a b = Fin q /\ 0 <= q <= 1.
Proof.
  intros Ha Hb Hd.
  destruct (inter_le_area a b Ha Hb) as [Hia Hib].
  pose proof (inter_area_nonneg a b) as Hn.
  assert (Hpos : 0 < iou_denominator a b).
  { unfold iou_denominator in *.
    destruct (Qlt_le_dec 0 (area a + area b - inter_area a b)) as [H | H];
      [exact H|].
    exfalso. apply Hd. lra. }
  exists (inter_area a b / iou_denominator a b).
  split; [unfold iou; now apply np_div_nonzero|].
  split.
  - apply Qle_shift_div_l; [exact Hpos | lra].
  - apply Qle_shift_div_r; [exact Hpos|]. unfold iou_denominator in *. lra.
Qed.

(** X4. For boxes with [x1 <= x2] and [y1 <= y2] the IoU of [nms], whenever its
    divisor is not zero, is a number between 0 and 1; for boxes of positive
    width and height the divisor is never zero. *)
Theorem iou_between_0_and_1 (a b : Box) :
  well_formed a -> well_formed b ->
  (~ iou_denominator a b == 0 -> exists q, iou a b = Fin q /\ 0 <= q <= 1)
  /\ (positive_extent a -> positive_extent b ->
      exists q, iou a b = Fin q /\ 0 <= q <= 1).
Proof.
  intros Ha Hb. split.
  - now apply iou_range.
  - intros Pa Pb. apply iou_range; try assumption.
    destruct (inter_le_area a b Ha Hb) as [_ Hib].
    pose proof (area_pos a (proj1 Pa) (proj2 Pa)).
    unfold iou_denominator. lra.
Qed.

Lemma iou_between_0_and_1_witness :
  exists q, iou (mkBox 0 0 10 10) (mkBox 1 1 11 11) = Fin q /\ 0 <= q <= 1.
Proof.
  assert (Ha : well_formed (mkBox 0 0 10 10)) by (split; simpl; lra).
  assert (Hb : well_formed (mkBox 1 1 11 11)) by (split; simpl; lra).
  destruct (iou_between_0_and_1 (mkBox 0 0 10 10) (mkBox 1 1 11 11) Ha Hb)
    as [Hnum _].
  apply Hnum. vm_compute. discriminate.
Defined.

Lemma positive_extent_denominator a b :
  positive_extent a -> positive_extent b -> 0 < iou_denominator a b.
Proof.
  intros Ha Hb.
  destruct (inter_le_area a b (positive_extent_well_formed a Ha)
              (positive_extent_well_formed b Hb)) as [_ Hib].
  pose proof (area_pos a (proj1 Ha) (proj2 Ha)).
  unfold iou_denominator. lra.
Qed.


(** ** Box sets from which [nms] drops nothing *)

Section NmsKeepsAll.

Variable argsort : list Q -> list nat.
Hypothesis argsort_perm : argsort_permutes argsort.

Lemma nms_keeps_all boxes scores t :
  length boxes = length scores ->
  (forall i j, (i < length boxes)%nat -> (j < length boxes)%nat -> i <> j ->
     survives boxes t i j = true) ->
  nms argsort boxes scores t = Ok (rev (argsort scores)).
Proof.
  intros Hlen Hall.
  rewrite (nms_greedy argsort_perm boxes scores t Hlen). f_equal.
  apply greedy_nms_all. apply ForallOrdPairs_NoDup.
  - now apply order_NoDup.
  - pose proof (order_indices argsort_perm scores) as Hidx.
    rewrite Forall_forall in Hidx.
    intros i j Hi Hj Hne. apply Hall; try assumption;
      rewrite Hlen; now apply Hidx.
Qed.


(** X6. With a threshold of 1 or more, boxes of positive width and height are
    all returned, however much they overlap. *)
Theorem nms_threshold_one_keeps_all (boxes : list Box) (scores : list Q)
    (t : Q) :
  length boxes = length scores ->
  1 <= t ->
  Forall positive_extent boxes ->
  nms argsort boxes scores t = Ok (rev (argsort scores))
  /\ Permutation (rev (argsort scores)) (seq 0 (length boxes)).
Proof.
  intros Hlen Ht Hpos. split.
  - apply nms_keeps_all; [exact Hlen|].
    intros i j Hi Hj Hne. rewrite Forall_forall in Hpos.
    pose proof (Hpos _ (nth_In boxes box0 Hi)) as Pi.
    pose proof (Hpos _ (nth_In boxes box0 Hj)) as Pj.
    pose proof (positive_extent_denominator _ _ Pi Pj) as Hd.
    destruct (iou_range _ _ (positive_extent_well_formed _ Pi)
                (positive_extent_well_formed _ Pj)) as (q & E & Hq);
      [lra|].
    unfold survives. rewrite E. apply np_le_Fin. lra.
  - rewrite Hlen, <- (argsort_perm scores). symmetry. apply Permutation_rev.
Qed.

End NmsKeepsAll.


Lemma nms_threshold_one_keeps_all_witness :
  nms argsort_insertion [mkBox 0 0 10 10; mkBox 1 1 11 11]
    [8 # 10; 9 # 10] 1
  = Ok (rev (argsort_insertion [8 # 10; 9 # 10])).
Proof.
  apply (nms_threshold_one_keeps_all argsort_insertion argsort_insertion_perm
           [mkBox 0 0 10 10; mkBox 1 1 11 11] [8 # 10; 9 # 10] 1).
  - reflexivity.
  - lra.
  - repeat constructor.
Defined.

(** ** What [post_process] returns *)

Lemma StronglySorted_map {A B} (R : B -> B -> Prop) (f : A -> B) l :
  StronglySorted (fun a b => R (f a) (f b)) l -> StronglySorted R (map f l).
Proof.
  induction 1 as [|a l _ IH Ha]; simpl; constructor; [exact IH|].
  apply Forall_map. exact Ha.
Qed.

Lemma ForallOrdPairs_map {A B} (R : B -> B -> Prop) (f : A -> B) l :
  ForallOrdPairs (fun a b => R (f a) (f b)) l -> ForallOrdPairs R (map f l).
Proof.
  induction 1 as [|a l Ha _ IH]; simpl; constructor; [|exact IH].
  apply Forall_map. exact Ha.
Qed.

Lemma ForallOrdPairs_weaken {A} (R R' : A -> A -> Prop) l :
  (forall a b, R a b -> R' a b) -> ForallOrdPairs R l -> ForallOrdPairs R' l.
Proof.
  intros HR. induction 1 as [|a l Ha _ IH]; constructor; [|exact IH].
  apply (Forall_impl _ (HR a)). exact Ha.
Qed.

Lemma argmax_from_bound (a : list Q) : forall k best bestv,
  (best < k)%nat -> (Np.argmax_from k best bestv a < k + length a)%nat.
Proof.
  induction a as [|v a IH]; intros k best bestv Hb; simpl; [lia|].
  destruct (Qle_bool v bestv).
  - pose proof (IH (S k) best bestv). lia.
  - pose proof (IH (S k) k v). lia.
Qed.

Lemma argmax_bound (a : list Q) :
  a <> [] -> (Np.argmax a < length a)%nat.
Proof.
  destruct a as [|v a]; [congruence|]. intros _. simpl.
  pose proof (argmax_from_bound a 1 0 v). lia.
Qed.

Lemma post_process_unfold argsort sigmoid prediction threshold :
  (4 < ncols prediction)%nat ->
  let F := filtered_rows sigmoid prediction threshold in
  post_process argsort sigmoid prediction threshold
  = (keep <- nms argsort (map row_box F) (map (confidence sigmoid) F) (1 # 2) ;;
     fb <- Np.take (map row_box F) keep ;;
     fs <- Np.take (map (confidence sigmoid) F) keep ;;
     fc <- Np.take (class_ids_of (ncols prediction) F) keep ;;
     Ok (fb, fs, fc)).
Proof.
  intros Hcols F. unfold post_process, class_ids_of.
  replace (ncols prediction <=? 4)%nat with false
    by (symmetry; apply Nat.leb_gt; exact Hcols).
  rewrite map_map.
  rewrite !compress_map, !compress_filter.
  rewrite <- (filtered_rows_filter sigmoid prediction threshold). fold F.
  now rewrite (length_map row_box F).
Qed.

(** X7. A tensor with fewer than five columns makes [post_process] raise
    [IndexError]; when no row has a confidence above the threshold it
    returns three empty arrays, whatever the sort does. *)
Theorem post_process_edge_cases (argsort : list Q -> list nat)
    (sigmoid : Q -> Q) (prediction : Tensor) (threshold : Q) :
  ((ncols prediction <= 4)%nat ->
   post_process argsort sigmoid prediction threshold = IndexError)
  /\ ((4 < ncols prediction)%nat ->
      (forall r, In r (rows prediction) ->
         confidence sigmoid r <= threshold) ->
      post_process argsort sigmoid prediction threshold = Ok ([], [], [])).
Proof.
  split.
  - intros H. unfold post_process.
    now replace (ncols prediction <=? 4)%nat with true
      by (symmetry; apply Nat.leb_le; exact H).
  - intros Hcols Hall.
    rewrite (post_process_unfold argsort sigmoid prediction threshold Hcols).
    assert (E : filtered_rows sigmoid prediction threshold = []).
    { rewrite filtered_rows_filter.
      destruct (filter _ (rows prediction)) as [|r l] eqn:Ef; [reflexivity|].
      assert (Hin : In r (r :: l)) by (simpl; auto).
      rewrite <- Ef in Hin. apply filter_In in Hin. destruct Hin as [Hr Hp].
      apply above_threshold in Hp. specialize (Hall r Hr). lra. }
    rewrite E. reflexivity.
Qed.

Lemma post_process_edge_cases_witness :
  post_process argsort_insertion sigmoid_rational
    (mkTensor 4 [[1 # 10; 1 # 10; 4 # 10; 4 # 10]]) (1 # 2) = IndexError
  /\ post_process argsort_insertion sigmoid_rational
       (mkTensor 5 [[1 # 10; 1 # 10; 4 # 10; 4 # 10; 0]]) (1 # 2)
     = Ok ([], [], []).
Proof.
  split.
  - apply (post_process_edge_cases argsort_insertion sigmoid_rational
             (mkTensor 4 [[1 # 10; 1 # 10; 4 # 10; 4 # 10]]) (1 # 2)).
    simpl. lia.
  - apply (post_process_edge_cases argsort_insertion sigmoid_rational
             (mkTensor 5 [[1 # 10; 1 # 10; 4 # 10; 4 # 10; 0]]) (1 # 2)).
    + simpl. lia.
    + intros r [<- | []]. vm_compute. discriminate.
Defined.

Section PostProcessOutput.

Variable argsort : list Q -> list nat.
Variable sigmoid : Q -> Q.
Hypothesis argsort_perm : argsort_permutes argsort.
Hypothesis argsort_sorted : argsort_ascending argsort.

(** X8. [post_process] returns three arrays of one length, at most the number
    of rows: every returned score is above the threshold, the scores come
    in descending order, no two returned boxes have an IoU above 0.5, the
    class ids are all 0 for a five-column tensor and are indices of class
    columns otherwise. *)
Theorem post_process_output (prediction : Tensor) (threshold : Q) :
  (4 < ncols prediction)%nat ->
  exists fb fs fc,
    post_process argsort sigmoid prediction threshold = Ok (fb, fs, fc)
    /\ length fb = length fs /\ length fs = length fc
    /\ (length fb <= length (rows prediction))%nat
    /\ Forall (fun s => threshold < s) fs
    /\ StronglySorted (fun a b => b <= a) fs
    /\ ForallOrdPairs (fun a b => ~ np_gt (iou a b) (1 # 2)) fb
    /\ (ncols prediction = 5%nat -> Forall (fun c => c = 0%nat) fc)
    /\ (tensor_wf prediction -> (5 < ncols prediction)%nat ->
        Forall (fun c => (c < ncols prediction - 5)%nat) fc).
Proof.
  intros Hcols.
  rewrite (post_process_unfold argsort sigmoid prediction threshold Hcols).
  set (F := filtered_rows sigmoid prediction threshold).
  set (B := map row_box F). set (S := map (confidence sigmoid) F).
  set (ids := class_ids_of (ncols prediction) F).
  set (keep := greedy_nms B (1 # 2) (rev (argsort S))).
  assert (HB : length B = length F) by apply length_map.
  assert (HS : length S = length F) by apply length_map.
  assert (Hids : length ids = length F).
  { unfold ids, class_ids_of. destruct (5 <? ncols prediction)%nat.
    - now rewrite !length_map.
    - apply repeat_length. }
  assert (Hnms : nms argsort B S (1 # 2) = Ok keep)
    by (apply nms_greedy; [exact argsort_perm | congruence]).
  assert (Hidx : Forall (fun i => (i < length F)%nat) keep).
  { apply greedy_nms_Forall. rewrite <- HS. now apply order_indices. }
  assert (Hnd : NoDup keep) by now apply greedy_nms_NoDup, order_NoDup.
  rewrite Hnms. simpl bind.
  rewrite (take_map B box0) by (rewrite HB; exact Hidx).
  rewrite (take_map S 0) by (rewrite HS; exact Hidx).
  rewrite (take_map ids 0%nat) by (rewrite Hids; exact Hidx).
  simpl bind.
  eexists. eexists. eexists. split; [reflexivity|].
  rewrite !length_map.
  split; [reflexivity|]. split; [reflexivity|].
  rewrite Forall_forall in Hidx.
  split.
  { transitivity (length F).
    - rewrite <- (length_seq (length F) 0). apply NoDup_incl_length; [exact Hnd|].
      intros i Hi. apply in_seq. specialize (Hidx i Hi). lia.
    - unfold F. rewrite filtered_rows_filter. apply filter_length_le. }
  split.
  { apply Forall_map. apply Forall_forall. intros i Hi.
    assert (Hin : In (nth i S 0) S) by (apply nth_In; rewrite HS; now apply Hidx).
    unfold S in Hin at 2. apply in_map_iff in Hin.
    destruct Hin as (r & Er & Hr). rewrite <- Er.
    unfold F in Hr. rewrite filtered_rows_filter in Hr.
    apply filter_In in Hr. now apply above_threshold. }
  split.
  { apply StronglySorted_map.
    apply (greedy_nms_sorted B (1 # 2)). now apply order_descending. }
  split.
  { apply ForallOrdPairs_map.
    apply (ForallOrdPairs_weaken
             (fun i j => survives B (1 # 2) i j = true));
      [|apply greedy_nms_pairwise].
    intros i j Hs. now apply np_le_not_gt. }
  split.
  { intros H5. apply Forall_map. apply Forall_forall. intros i _.
    unfold ids, class_ids_of. rewrite H5. simpl. apply nth_repeat. }
  intros Hwf H5. apply Forall_map. apply Forall_forall. intros i Hi.
  specialize (Hidx i Hi).
  unfold ids, class_ids_of.
  replace (5 <? ncols prediction)%nat with true
    by (symmetry; apply Nat.ltb_lt; exact H5).
  rewrite map_map.
  rewrite (nth_indep _ 0%nat (Np.argmax (skipn 5 [])))
    by (rewrite length_map; exact Hidx).
  rewrite (map_nth (fun r => Np.argmax (skipn 5 r)) F [] i).
  assert (Hr : In (nth i F []) (rows prediction)).
  { assert (Hin : In (nth i F []) F) by now apply nth_In.
    unfold F in Hin at 2. rewrite filtered_rows_filter in Hin.
    now apply filter_In in Hin. }
  unfold tensor_wf in Hwf. rewrite Forall_forall in Hwf.
  specialize (Hwf _ Hr).
  assert (Hlen : length (skipn 5 (nth i F [])) = (ncols prediction - 5)%nat)
    by (rewrite length_skipn; lia).
  rewrite <- Hlen. apply argmax_bound.
  intros E. rewrite E in Hlen. simpl in Hlen. lia.
Qed.

(** X9. A tensor with exactly one row above the threshold returns that row:
    its box, its confidence, and class 0 or the first largest class logit. *)
Theorem post_process_single_detection (prediction : Tensor) (threshold : Q)
    (r : list Q) :
  (4 < ncols prediction)%nat ->
  filtered_rows sigmoid prediction threshold = [r] ->
  post_process argsort sigmoid prediction threshold
  = Ok ([row_box r], [confidence sigmoid r],
        [if (5 <? ncols prediction)%nat then Np.argmax (skipn 5 r) else 0%nat]).
Proof.
  intros Hcols HF.
  rewrite (post_process_unfold argsort sigmoid prediction threshold Hcols).
  rewrite HF. simpl map.
  rewrite (nms_greedy argsort_perm [row_box r] [confidence sigmoid r] (1 # 2))
    by reflexivity.
  pose proof (argsort_perm [confidence sigmoid r]) as P. simpl in P.
  apply Permutation_sym, Permutation_length_1_inv in P. rewrite P.
  simpl rev. simp greedy_nms. simpl filter. simp greedy_nms.
  unfold class_ids_of. destruct (5 <? ncols prediction)%nat; reflexivity.
Qed.

End PostProcessOutput.

Lemma post_process_output_witness :
  exists fb fs fc,
    post_process argsort_insertion sigmoid_rational
      (mkTensor 5 [[1 # 10; 1 # 10; 4 # 10; 4 # 10; 0];
                   [1 # 10; 1 # 10; 4 # 10; 4 # 10; 1]]) (1 # 2)
    = Ok (fb, fs, fc)
    /\ length fb = length fs
    /\ Forall (fun s => 1 # 2 < s) fs.
Proof.
  destruct (post_process_output argsort_insertion sigmoid_rational
              argsort_insertion_perm argsort_insertion_sorted
              (mkTensor 5 [[1 # 10; 1 # 10; 4 # 10; 4 # 10; 0];
                           [1 # 10; 1 # 10; 4 # 10; 4 # 10; 1]]) (1 # 2))
    as (fb & fs & fc & E & Hl & _ & _ & Hs & _).
  - simpl. lia.
  - exists fb, fs, fc. auto.
Defined.

Lemma post_process_single_detection_witness :
  post_process argsort_insertion sigmoid_rational
    (mkTensor 7 [[1 # 10; 1 # 10; 4 # 10; 4 # 10; 0; 3; 9];
                 [2 # 10; 2 # 10; 5 # 10; 5 # 10; 1; 3; 9]]) (1 # 2)
  = Ok ([mkBox (2 # 10) (2 # 10) (5 # 10) (5 # 10)],
        [sigmoid_rational 1], [1%nat]).
Proof.
  apply (post_process_single_detection argsort_insertion sigmoid_rational
           argsort_insertion_perm
           (mkTensor 7 [[1 # 10; 1 # 10; 4 # 10; 4 # 10; 0; 3; 9];
                        [2 # 10; 2 # 10; 5 # 10; 5 # 10; 1; 3; 9]]) (1 # 2)
           [2 # 10; 2 # 10; 5 # 10; 5 # 10; 1; 3; 9]).
  - simpl. lia.
  - reflexivity.
Defined.

(** * [draw_predictions] *)

Lemma py_int_nonneg q : 0 <= q -> (0 <= py_int q)%Z.
Proof.
  intros H. rewrite (py_int_floor H).
  change 0%Z with (Qfloor 0). now apply Qfloor_resp_le.
Qed.

Lemma py_int_monotone p q : 0 <= p -> p <= q -> (py_int p <= py_int q)%Z.
Proof.
  intros Hp Hpq.
  rewrite (py_int_floor Hp), (py_int_floor (Qle_trans _ _ _ Hp Hpq)).
  now apply Qfloor_resp_le.
Qed.

Lemma py_int_scaled (x : Q) (n : nat) :
  0 <= x -> x <= 1 ->
  (0 <= py_int (x * inject_Z (Z.of_nat n)) <= Z.of_nat n)%Z.
Proof.
  intros H0 H1.
  assert (Hn : 0 <= inject_Z (Z.of_nat n))
    by (unfold Qle; simpl; lia).
  assert (Hlo : 0 <= x * inject_Z (Z.of_nat n))
    by (apply Qmult_le_0_compat; assumption).
  split; [now apply py_int_nonneg|].
  rewrite (py_int_floor Hlo).
  rewrite <- (Qfloor_Z (Z.of_nat n)) at 2.
  apply Qfloor_resp_le.
  rewrite <- (Qmult_1_l (inject_Z (Z.of_nat n))) at 2.
  now apply Qmult_le_compat_r.
Qed.

Lemma pick_color_total (class_id : Z) :
  (0 <= class_id)%Z -> exists c, pick_color class_id = Ok c.
Proof.
  intros H0.
  destruct (Z_lt_le_dec class_id 4) as [Hlt | Hge].
  - assert (E : class_id = 0%Z \/ class_id = 1%Z \/ class_id = 2%Z
                \/ class_id = 3%Z) by lia.
    destruct E as [-> | [-> | [-> | ->]]]; eexists; reflexivity.
  - unfold pick_color.
    replace (class_id <? Z.of_nat (length colors) - 1)%Z with false
      by (symmetry; apply Z.ltb_ge; simpl; lia).
    eexists. reflexivity.
Qed.

(** X10. The colour of a class id that is not negative is found without an
    index error: classes 0 to 3 get the four colours after the first entry
    of the palette, pairwise different and different from the first, and
    every class from 4 on gets the first entry. *)
Theorem pick_color_classes (class_id : Z) :
  (0 <= class_id)%Z ->
  (exists c, pick_color class_id = Ok c)
  /\ ((class_id < 4)%Z ->
      pick_color class_id = Ok (nth (Z.to_nat class_id + 1) colors (0, 0, 0)%Z)
      /\ pick_color class_id <> pick_color 4
      /\ forall other, (0 <= other < 4)%Z -> other <> class_id ->
           pick_color other <> pick_color class_id)
  /\ ((4 <= class_id)%Z -> pick_color class_id = Ok (0, 255, 0)%Z).
Proof.
  intros H0.
  assert (Hsmall : forall c, (0 <= c < 4)%Z ->
            c = 0%Z \/ c = 1%Z \/ c = 2%Z \/ c = 3%Z) by (intros; lia).
  assert (Hbig : (4 <= class_id)%Z -> pick_color class_id = Ok (0, 255, 0)%Z).
  { intros H4. unfold pick_color.
    replace (class_id <? Z.of_nat (length colors) - 1)%Z with false
      by (symmetry; apply Z.ltb_ge; simpl; lia).
    reflexivity. }
  split; [|split; [|exact Hbig]].
  - destruct (Z_lt_le_dec class_id 4) as [Hlt | Hge].
    + destruct (Hsmall class_id (conj H0 Hlt)) as [-> | [-> | [-> | ->]]];
        eexists; reflexivity.
    + eexists. now apply Hbig.
  - intros Hlt.
    destruct (Hsmall class_id (conj H0 Hlt)) as [-> | [-> | [-> | ->]]];
      (split; [reflexivity|]); (split; [discriminate|]);
      intros other Ho Hne;
      destruct (Hsmall other Ho) as [-> | [-> | [-> | ->]]];
      try congruence; discriminate.
Qed.

Lemma pick_color_classes_witness :
  pick_color 2 = Ok (255, 255, 0)%Z /\ pick_color 7 = Ok (0, 255, 0)%Z.
Proof.
  destruct (pick_color_classes 2) as (_ & H2 & _); [lia|].
  destruct (pick_color_classes 7) as (_ & _ & H7); [lia|].
  split; [|apply H7; lia].
  destruct H2 as [E _]; [lia|]. exact E.
Defined.

(** X11. A box with [0 <= x1 <= x2 <= 1] and [0 <= y1 <= y2 <= 1] is drawn as a
    rectangle inside the image with its corners in order. *)
Theorem box_rectangle_inside (height width : nat) (box : Box) (class_id : Z) :
  (0 <= class_id)%Z ->
  0 <= bx1 box -> bx1 box <= bx2 box -> bx2 box <= 1 ->
  0 <= by1 box -> by1 box <= by2 box -> by2 box <= 1 ->
  exists r,
    box_rectangle height width box class_id = Ok r
    /\ (0 <= rx1 r <= rx2 r)%Z /\ (rx2 r <= Z.of_nat width)%Z
    /\ (0 <= ry1 r <= ry2 r)%Z /\ (ry2 r <= Z.of_nat height)%Z.
Proof.
  intros Hc Hx0 Hx Hx1 Hy0 Hy Hy1.
  destruct (pick_color_total class_id Hc) as (c & Ec).
  unfold box_rectangle. rewrite Ec. simpl bind.
  eexists. split; [reflexivity|]. simpl.
  assert (Hw : 0 <= inject_Z (Z.of_nat width)) by (unfold Qle; simpl; lia).
  assert (Hh : 0 <= inject_Z (Z.of_nat height)) by (unfold Qle; simpl; lia).
  pose proof (py_int_scaled (bx1 box) width Hx0 (Qle_trans _ _ _ Hx Hx1)).
  pose proof (py_int_scaled (bx2 box) width (Qle_trans _ _ _ Hx0 Hx) Hx1).
  pose proof (py_int_scaled (by1 box) height Hy0 (Qle_trans _ _ _ Hy Hy1)).
  pose proof (py_int_scaled (by2 box) height (Qle_trans _ _ _ Hy0 Hy) Hy1).
  assert ((py_int (bx1 box * inject_Z (Z.of_nat width))
           <= py_int (bx2 box * inject_Z (Z.of_nat width)))%Z).
  { apply py_int_monotone; [now apply Qmult_le_0_compat|].
    now apply Qmult_le_compat_r. }
  assert ((py_int (by1 box * inject_Z (Z.of_nat height))
           <= py_int (by2 box * inject_Z (Z.of_nat height)))%Z).
  { apply py_int_monotone; [now apply Qmult_le_0_compat|].
    now apply Qmult_le_compat_r. }
  lia.
Qed.

Lemma box_rectangle_inside_witness :
  exists r,
    box_rectangle 100 200 (mkBox (1 # 10) (1 # 10) (4 # 10) (4 # 10)) 0 = Ok r
    /\ (0 <= rx1 r <= rx2 r)%Z /\ (rx2 r <= 200)%Z.
Proof.
  destruct (box_rectangle_inside 100 200
              (mkBox (1 # 10) (1 # 10) (4 # 10) (4 # 10)) 0)
    as (r & E & Hx & Hw & _); simpl; try lra; try lia.
  exists r. auto.
Defined.

(** * Further properties of the enhancement code *)

(** ** The parameters of [adaptive_clahe] *)

(** X13. [adaptive_clahe] is [apply_clahe] with a clip limit and a tile grid
    derived from the standard deviation of the grey image: the clip limit
    is [5 - std/50] clamped into [min_clip_limit, max_clip_limit], so it
    never grows with the deviation, and the grid is 4 x 4 exactly when the
    deviation is below the low-contrast threshold and 8 x 8 otherwise. *)
Theorem adaptive_clahe_parameters (cv : Cv2) (img : image)
    (low min_clip max_clip : Q) :
  let std := np_std cv (cvtColor_RGB2GRAY cv img) in
  let clip := adaptive_clip_limit std min_clip max_clip in
  adaptive_clahe cv img low min_clip max_clip
  = apply_clahe cv img clip (adaptive_grid_size std low)
  /\ min_clip <= clip
  /\ (min_clip <= max_clip -> clip <= max_clip)
  /\ (min_clip <= 5 - std / 50 <= max_clip -> clip == 5 - std / 50)
  /\ (max_clip <= 5 - std / 50 -> min_clip <= max_clip -> clip == max_clip)
  /\ (5 - std / 50 <= min_clip -> clip == min_clip)
  /\ (forall std', std <= std' ->
        adaptive_clip_limit std' min_clip max_clip <= clip)
  /\ (std < low <-> adaptive_grid_size std low = (4, 4)%nat)
  /\ (low <= std <-> adaptive_grid_size std low = (8, 8)%nat).
Proof.
  intros std clip. unfold clip, adaptive_clip_limit, adaptive_grid_size.
  split; [reflexivity|].
  assert (Hmax : forall x y, (x < y /\ Qmax x y == y) \/ (y <= x /\ Qmax x y == x))
    by apply Q.max_spec.
  assert (Hmin : forall x y, (x < y /\ Qmin x y == x) \/ (y <= x /\ Qmin x y == y))
    by apply Q.min_spec.
  split; [apply Q.le_max_l|].
  split.
  { intros Hle.
    destruct (Hmin max_clip (5 - std / 50)) as [[? Em] | [? Em]];
    destruct (Hmax min_clip (Qmin max_clip (5 - std / 50))) as [[? EM] | [? EM]];
    lra. }
  split.
  { intros [Hlo Hhi].
    destruct (Hmin max_clip (5 - std / 50)) as [[? Em] | [? Em]];
    destruct (Hmax min_clip (Qmin max_clip (5 - std / 50))) as [[? EM] | [? EM]];
    lra. }
  split.
  { intros Hhi Hle.
    destruct (Hmin max_clip (5 - std / 50)) as [[? Em] | [? Em]];
    destruct (Hmax min_clip (Qmin max_clip (5 - std / 50))) as [[? EM] | [? EM]];
    lra. }
  split.
  { intros Hlo.
    destruct (Hmin max_clip (5 - std / 50)) as [[? Em] | [? Em]];
    destruct (Hmax min_clip (Qmin max_clip (5 - std / 50))) as [[? EM] | [? EM]];
    lra. }
  split.
  { intros std' Hstd.
    assert (Hd : 5 - std' / 50 <= 5 - std / 50).
    { unfold Qdiv. assert (0 <= / 50) by (unfold Qle; simpl; lia). nra. }
    destruct (Hmin max_clip (5 - std / 50)) as [[? Em] | [? Em]];
    destruct (Hmax min_clip (Qmin max_clip (5 - std / 50))) as [[? EM] | [? EM]];
    destruct (Hmin max_clip (5 - std' / 50)) as [[? Em'] | [? Em']];
    destruct (Hmax min_clip (Qmin max_clip (5 - std' / 50)))
      as [[? EM'] | [? EM']];
    lra. }
  destruct (Qle_bool low std) eqn:E; simpl.
  - apply Qle_bool_iff in E. split; split; intros H;
      try discriminate; try reflexivity; try exact E. lra.
  - assert (Hlt : std < low).
    { apply Qnot_le_lt. intros H. apply Qle_bool_iff in H. congruence. }
    split; split; intros H; try discriminate; try reflexivity;
      try exact Hlt. lra.
Qed.

(** ** Planes through [cv2.merge] *)

Lemma merged_row_planes (rl : list Z) : forall (ra rb : list Z),
  length rl = length ra -> length rl = length rb ->
  let row := Np.zip_with (fun x ab => [x; fst ab; snd ab]) rl (combine ra rb) in
  map (fun p => nth 0 p 0%Z) row = rl
  /\ map (fun p => nth 1 p 0%Z) row = ra
  /\ map (fun p => nth 2 p 0%Z) row = rb.
Proof.
  induction rl as [|x rl IH]; intros [|a ra] [|b rb] Ha Hb; simpl in *;
    try discriminate; [auto|].
  destruct (IH ra rb) as (E0 & E1 & E2); [lia | lia |].
  now rewrite E0, E1, E2.
Qed.

Lemma merged_planes (l : list (list Z)) : forall (a b : list (list Z)),
  map (@length Z) l = map (@length Z) a ->
  map (@length Z) l = map (@length Z) b ->
  let m :=
    Np.zip_with
      (fun rl rab => Np.zip_with (fun x ab => [x; fst ab; snd ab]) rl rab)
      l (Np.zip_with (@combine Z Z) a b) in
  channel 0 m = l /\ channel 1 m = a /\ channel 2 m = b.
Proof.
  unfold channel.
  induction l as [|rl l IH]; intros [|ra a] [|rb b] Ha Hb; simpl in *;
    try discriminate; [auto|].
  injection Ha as Hra Ha. injection Hb as Hrb Hb.
  destruct (IH a b Ha Hb) as (E0 & E1 & E2).
  destruct (merged_row_planes rl ra rb Hra Hrb) as (R0 & R1 & R2).
  now rewrite E0, E1, E2, R0, R1, R2.
Qed.

Lemma merge3_planes h w l a b :
  gray_shape h w l -> gray_shape h w a -> gray_shape h w b ->
  exists m,
    merge3 l a b = Ok m /\ image_shape h w 3 m
    /\ channel 0 m = l /\ channel 1 m = a /\ channel 2 m = b.
Proof.
  intros Hl Ha Hb.
  destruct (merge3_shape h w l a b Hl Ha Hb) as (m & Em & Hm).
  exists m. split; [exact Em|]. split; [exact Hm|].
  unfold merge3 in Em.
  destruct (same_shape2 l a && same_shape2 l b); [|discriminate].
  injection Em as <-.
  apply merged_planes; unfold gray_shape in *; congruence.
Qed.

(** X14. [apply_clahe] equalises the lightness plane only: the image handed to
    the conversion back to RGB has the two colour planes of the LAB image
    of the input, and the CLAHE of its lightness plane. *)
Theorem apply_clahe_lightness_only (cv : Cv2) (h w : nat) (img : image)
    (clip : Q) (grid : nat * nat) :
  Cv2Shapes cv ->
  image_shape h w 3 img ->
  exists lab,
    apply_clahe cv img clip grid = Ok (cvtColor_LAB2RGB cv lab)
    /\ image_shape h w 3 lab
    /\ channel 0 lab
       = clahe_apply cv clip grid (channel 0 (cvtColor_RGB2LAB cv img))
    /\ channel 1 lab = channel 1 (cvtColor_RGB2LAB cv img)
    /\ channel 2 lab = channel 2 (cvtColor_RGB2LAB cv img).
Proof.
  intros shapes Himg. unfold apply_clahe.
  pose proof (lab_of_rgb shapes Himg) as Hlab.
  rewrite (split3_shape h w _ Hlab). simpl bind.
  destruct (merge3_planes h w
              (clahe_apply cv clip grid (channel 0 (cvtColor_RGB2LAB cv img)))
              (channel 1 (cvtColor_RGB2LAB cv img))
              (channel 2 (cvtColor_RGB2LAB cv img)))
    as (m & Em & Hm & E0 & E1 & E2).
  - apply (clahe_shape shapes). now apply (channel_shape h w 3).
  - now apply (channel_shape h w 3).
  - now apply (channel_shape h w 3).
  - rewrite Em. simpl bind. exists m. auto.
Qed.

Lemma apply_clahe_lightness_only_witness :
  exists lab,
    apply_clahe Toy.cv Toy.img_blob 2 (8, 8)%nat = Ok lab
    /\ channel 1 lab = channel 1 Toy.img_blob.
Proof.
  destruct (apply_clahe_lightness_only Toy.cv 3 3 Toy.img_blob 2 (8, 8)%nat
              toy_shapes eq_refl) as (lab & E & _ & _ & E1 & _).
  exists lab. split; [exact E | exact E1].
Defined.

(** ** Inside the rectangle of [enhance_small_cells] *)

Lemma slice_splice {A} lo hi (a v : list A) :
  length v = length (slice lo hi a) -> slice lo hi (splice lo hi a v) = v.
Proof.
  intros Hlen. rewrite slice_length in Hlen. unfold slice, splice.
  rewrite skipn_app, length_firstn.
  destruct (Nat.le_gt_cases lo (length a)) as [Hlo | Hlo].
  - rewrite (skipn_all2 (firstn lo a)) by (rewrite length_firstn; lia).
    replace (lo - Nat.min lo (length a))%nat with 0%nat by lia.
    simpl. rewrite firstn_app.
    rewrite (firstn_all2 v) by lia.
    destruct (Nat.le_gt_cases (hi - lo) (length a - lo)) as [H | H].
    + replace (hi - lo - length v)%nat with 0%nat by lia.
      simpl. apply app_nil_r.
    + rewrite (skipn_all2 a) by lia. rewrite firstn_nil. apply app_nil_r.
  - destruct v as [|x v]; [|simpl in Hlen; lia].
    rewrite (skipn_all2 a) by lia. simpl.
    rewrite (skipn_all2 (firstn lo a)) by (rewrite length_firstn; lia).
    simpl. rewrite skipn_nil. apply firstn_nil.
Qed.

Lemma slice_spliced_rows x0 x1 (rows_ : list (list (list Z))) : forall v,
  map (map (@length Z)) (map (slice x0 x1) rows_) = map (map (@length Z)) v ->
  map (slice x0 x1) (Np.zip_with (splice x0 x1) rows_ v) = v.
Proof.
  induction rows_ as [|r rows_ IH]; intros [|vr v] H; simpl in *;
    try discriminate; [reflexivity|].
  injection H as Hr Hrest. f_equal; [|now apply IH].
  apply slice_splice.
  apply (f_equal (@length nat)) in Hr. now rewrite !length_map in Hr.
Qed.

(** Reading the rectangle after assigning to it gives the assigned value. *)
Lemma slice2_set_slice2 y0 y1 x0 x1 a v out :
  set_slice2 y0 y1 x0 x1 a v = Ok out -> slice2 y0 y1 x0 x1 out = v.
Proof.
  unfold set_slice2.
  destruct (same_shape3 (slice2 y0 y1 x0 x1 a) v) eqn:E; [|discriminate].
  intros H. injection H as <-. apply same_shape3_iff in E.
  unfold slice2 in *.
  rewrite slice_splice.
  - now apply slice_spliced_rows.
  - rewrite zip_with_length; [reflexivity|].
    apply (f_equal (@length (list nat))) in E. now rewrite !length_map in E.
Qed.

(** X15. When the rectangle of the mask spans at least two rows and two columns,
    the returned image restricted to the rectangle is the enhancement of the
    input restricted to the rectangle. *)
Theorem enhance_small_cells_inside_rect (cv : Cv2) (h w : nat) (img : image)
    (t : Q) (m : gray) (min_y max_y min_x max_x : nat) :
  Cv2Shapes cv ->
  image_shape h w 3 img ->
  accumulator_mask cv img t = Ok m ->
  nonzero m <> [] ->
  mask_rect m = (min_y, max_y, min_x, max_x) ->
  (min_y < max_y)%nat -> (min_x < max_x)%nat ->
  exists roi out,
    enhance_roi cv (slice2 min_y (max_y + 1) min_x (max_x + 1) img) = Ok roi
    /\ enhance_small_cells cv img t = Ok out
    /\ slice2 min_y (max_y + 1) min_x (max_x + 1) out = roi
    /\ image_shape (max_y + 1 - min_y) (max_x + 1 - min_x) 3 roi.
Proof.
  intros shapes Himg Em Hne Er Hy Hx.
  destruct (enhance_small_cells_frame cv shapes h w img t Himg)
    as (m' & out & Em' & Hm & Eout & _ & _).
  rewrite Em in Em'. injection Em' as <-.
  unfold enhance_small_cells in Eout. rewrite Em in Eout.
  unfold bind at 1 in Eout. rewrite Er in Eout.
  replace (0 <? length (nonzero m))%nat with true in Eout
    by (symmetry; apply Nat.ltb_lt; destruct (nonzero m);
        [congruence | simpl; lia]).
  replace ((min_y <? max_y)%nat && (min_x <? max_x)%nat) with true in Eout
    by (symmetry; apply andb_true_iff; split; now apply Nat.ltb_lt).
  destruct (mask_rect_tight Hne Er) as (_ & _ & IMy & _ & IMx).
  assert (Hyh : (max_y + 1 <= h)%nat).
  { apply in_map_iff in IMy. destruct IMy as ([y x] & E & Hin).
    simpl in E. subst y. apply nonzero_In in Hin.
    destruct Hin as (v & Hv & _).
    destruct (gray_shape_pixel h w m max_y x v Hm Hv). lia. }
  assert (Hxw : (max_x + 1 <= w)%nat).
  { apply in_map_iff in IMx. destruct IMx as ([y x] & E & Hin).
    simpl in E. subst x. apply nonzero_In in Hin.
    destruct Hin as (v & Hv & _).
    destruct (gray_shape_pixel h w m y max_x v Hm Hv). lia. }
  pose proof (slice2_shape h w 3 min_y (max_y + 1) min_x (max_x + 1) img
                Himg Hyh Hxw) as Hroi.
  destruct (enhance_roi_shape cv shapes _ _ _ Hroi) as (roi & Eroi & Hroi').
  rewrite Eroi in Eout. simpl bind in Eout.
  exists roi, out. split; [exact Eroi|].
  split; [unfold enhance_small_cells; rewrite Em; unfold bind at 1;
          rewrite Er|].
  - replace (0 <? length (nonzero m))%nat with true
      by (symmetry; apply Nat.ltb_lt; destruct (nonzero m);
          [congruence | simpl; lia]).
    replace ((min_y <? max_y)%nat && (min_x <? max_x)%nat) with true
      by (symmetry; apply andb_true_iff; split; now apply Nat.ltb_lt).
    rewrite Eroi. exact Eout.
  - split; [exact (slice2_set_slice2 _ _ _ _ _ _ _ Eout) | exact Hroi'].
Qed.

Lemma enhance_small_cells_inside_rect_witness :
  exists roi out,
    enhance_roi Toy.cv (slice2 1 3 1 3 Toy.img_blob) = Ok roi
    /\ enhance_small_cells Toy.cv Toy.img_blob (5 # 1000) = Ok out
    /\ slice2 1 3 1 3 out = roi.
Proof.
  destruct (enhance_small_cells_inside_rect Toy.cv 3 3 Toy.img_blob (5 # 1000)
              [[0; 0; 0]; [0; 255; 255]; [0; 255; 0]]%Z 1 2 1 2
              toy_shapes eq_refl eq_refl)
    as (roi & out & Eroi & Eout & Es & _); try lia.
  - discriminate.
  - reflexivity.
  - exists roi, out. auto.
Defined.

(** ** The accumulator mask of a small image *)

Lemma py_int_below_one q : q < 1 -> (py_int q <= 0)%Z.
Proof.
  intros H1. destruct (Qlt_le_dec q 0) as [Hneg | Hpos].
  - now apply py_int_negative.
  - rewrite (py_int_floor Hpos).
    destruct (Z_le_gt_dec (Qfloor q) 0) as [H | H]; [exact H|].
    exfalso. assert (Hz : (1 <= Qfloor q)%Z) by lia.
    rewrite Zle_Qle in Hz. change (inject_Z 1) with 1 in Hz.
    pose proof (Qfloor_le q) as Hf.
    apply (Qlt_irrefl q).
    apply (Qlt_le_trans _ 1); [exact H1|].
    exact (Qle_trans _ _ _ Hz Hf).
Qed.

Lemma lor_zero_row (r re : list Z) :
  length r = length re ->
  Np.zip_with Z.lor (map (fun _ => 0%Z) r) re = re.
Proof.
  revert re. induction r as [|x r IH]; intros [|y re] H; simpl in *;
    try discriminate; [reflexivity|].
  f_equal. apply IH. lia.
Qed.

Lemma lor_zeros (g : gray) : forall e : gray,
  map (@length Z) g = map (@length Z) e ->
  Np.zip_with (Np.zip_with Z.lor) (zeros_like g) e = e.
Proof.
  unfold zeros_like.
  induction g as [|r g IH]; intros [|re e] H; simpl in *;
    try discriminate; try reflexivity.
  injection H as Hr H. f_equal; [now apply lor_zero_row | now apply IH].
Qed.

Lemma bitwise_or_zeros (g e : gray) :
  map (@length Z) g = map (@length Z) e ->
  bitwise_or (zeros_like g) e = Ok e.
Proof.
  intros H. unfold bitwise_or.
  rewrite (proj2 (same_shape2_iff (zeros_like g) e))
    by (now rewrite zeros_like_shape).
  now rewrite (lor_zeros g e H).
Qed.

(** X16. When [min(h, w) * cell_size_threshold] is below 1 (with the default
    0.005: when the smaller side has fewer than 200 pixels) no component can
    be small, and the accumulator mask is the blurred, dilated edge map
    alone. *)
Theorem accumulator_mask_small_image (cv : Cv2) (h w : nat) (img : image)
    (t : Q) :
  Cv2Shapes cv ->
  image_shape h w 3 img ->
  inject_Z (Z.of_nat (Nat.min (length img) (length (hd [] img)))) * t < 1 ->
  Forall (fun st => (0 <= Z.max (cc_width st) (cc_height st))%Z)
    (snd (connectedComponentsWithStats cv
            (adaptiveThreshold cv (cvtColor_RGB2GRAY cv img) 255 11 2))) ->
  accumulator_mask cv img t
  = Ok (GaussianBlur cv
          (dilate cv (Canny cv (cvtColor_RGB2GRAY cv img) 50 150) (2, 2)%nat)
          (3, 3)%nat).
Proof.
  intros shapes Himg Hsmall Hstats. unfold accumulator_mask.
  pose proof (gray_of_rgb shapes Himg) as Hg.
  set (g := cvtColor_RGB2GRAY cv img) in *.
  pose proof (threshold_shape shapes 255%Z 11%Z 2%Z Hg) as Hb.
  destruct (components_shape shapes Hb) as [Hl Hs].
  destruct (connectedComponentsWithStats cv (adaptiveThreshold cv g 255 11 2))
    as [[n labels] stats]. simpl in Hl, Hs, Hstats.
  pose proof (py_int_below_one _ Hsmall) as Hthr.
  fold (cell_pixel_threshold (length img) (length (hd [] img)) t) in Hthr.
  destruct (for_each_invariant (fun s => s = zeros_like g)
              (small_cells_body cv g labels stats
                 (cell_pixel_threshold (length img) (length (hd [] img)) t))
              (seq 1 (n - 1)) (zeros_like g) eq_refl) as (sm & Esm & Hsm).
  { intros s i Hi ->. exists (zeros_like g). split; [|reflexivity].
    apply in_seq in Hi. unfold small_cells_body, Np.getitem.
    destruct (nth_error stats i) as [st|] eqn:Est;
      [|apply nth_error_None in Est; lia].
    simpl bind.
    rewrite Forall_forall in Hstats.
    pose proof (Hstats st (nth_error_In _ _ Est)) as Hst.
    unfold is_small.
    now replace (Z.max (cc_width st) (cc_height st)
                 <? cell_pixel_threshold (length img) (length (hd [] img)) t)%Z
      with false by (symmetry; apply Z.ltb_ge; lia). }
  rewrite Esm, Hsm. simpl bind.
  rewrite bitwise_or_zeros; [reflexivity|].
  pose proof (dilate_shape shapes (2, 2)%nat
                (canny_shape shapes 50%Z 150%Z Hg)) as He.
  unfold gray_shape in *. congruence.
Qed.

Lemma accumulator_mask_small_image_witness :
  accumulator_mask Toy.cv Toy.img_blob (5 # 1000)
  = Ok (Toy.edges (channel 0 Toy.img_blob) 50 150).
Proof.
  apply (accumulator_mask_small_image Toy.cv 3 3 Toy.img_blob (5 # 1000)
           toy_shapes eq_refl).
  - reflexivity.
  - repeat constructor; simpl; lia.
Defined.

(** ** The guided method of [enhance_image] *)

Lemma set_channel_pixel (i j : nat) (x : Z) (p : list Z) :
  length p = 3%nat -> (i < 3)%nat ->
  nth j (firstn i p ++ x :: skipn (S i) p) 0%Z
  = if (j =? i)%nat then x else nth j p 0%Z.
Proof.
  intros Hp Hi.
  destruct p as [|a [|b [|c [|d p]]]]; try discriminate.
  destruct i as [|[|[|i]]]; try lia;
    destruct j as [|[|[|j]]]; try reflexivity; now destruct j.
Qed.

Lemma set_channel_row_planes (i w : nat) (r : list (list Z)) : forall vr,
  (i < 3)%nat ->
  map (@length Z) r = repeat 3%nat w -> length vr = w ->
  let row := Np.zip_with (fun p x => firstn i p ++ x :: skipn (S i) p) r vr in
  map (fun p => nth i p 0%Z) row = vr
  /\ forall j, j <> i ->
       map (fun p => nth j p 0%Z) row = map (fun p => nth j p 0%Z) r.
Proof.
  revert w. induction r as [|p r IH]; intros w vr Hi Hr Hv.
  - destruct w; [|discriminate]. destruct vr; [|discriminate].
    simpl. auto.
  - destruct w as [|w]; [discriminate|].
    destruct vr as [|x vr]; [discriminate|].
    cbn [Np.zip_with map repeat length] in *.
    injection Hr as Hp Hr. injection Hv as Hv.
    destruct (IH w vr Hi Hr Hv) as [Ei Ej].
    split.
    + rewrite Ei, (set_channel_pixel i i x p Hp Hi), Nat.eqb_refl.
      reflexivity.
    + intros j Hj. rewrite (Ej j Hj), (set_channel_pixel i j x p Hp Hi).
      now replace (j =? i)%nat with false
        by (symmetry; apply Nat.eqb_neq; exact Hj).
Qed.

Lemma set_channel_planes (h w i : nat) (img : image) (v : gray) :
  (i < 3)%nat -> image_shape h w 3 img -> gray_shape h w v ->
  exists out,
    set_channel i img v = Ok out
    /\ image_shape h w 3 out
    /\ channel i out = v
    /\ forall j, j <> i -> channel j out = channel j img.
Proof.
  intros Hi Himg Hv. unfold set_channel.
  rewrite (channels_present h w i img Hi Himg).
  rewrite (proj2 (same_shape2_iff img v))
    by (rewrite (image_shape_gray h w 3 img Himg); symmetry; exact Hv).
  eexists. split; [reflexivity|].
  split; [now apply set_channel_rows_shape|].
  unfold channel, image_shape, gray_shape in *.
  revert h v Himg Hv.
  induction img as [|r img IH]; intros h v Himg Hv.
  - destruct h; [|discriminate]. destruct v; [|discriminate]. simpl. auto.
  - destruct h as [|h]; [discriminate|].
    destruct v as [|vr v]; [discriminate|].
    cbn [Np.zip_with map repeat] in *.
    injection Himg as Hr Himg. injection Hv as Hvr Hv.
    destruct (IH h v Himg Hv) as [Ei Ej].
    destruct (set_channel_row_planes i w r vr Hi Hr Hvr) as [Ri Rj].
    split.
    + now rewrite Ei, Ri.
    + intros j Hj. now rewrite (Ej j Hj), (Rj j Hj).
Qed.

(** X17. With the method ["guided"], no small-cell enhancement and no denoising,
    [enhance_image] replaces each of the three channels by the guided
    filter of that channel of the input with itself as guide: no channel
    influences another. *)
Theorem enhance_image_guided_channels (cv : Cv2) (h w : nat) (img : image)
    (denoise_level : Z) (params : option Params) :
  Cv2Shapes cv ->
  image_shape h w 3 img ->
  (denoise_level <= 0)%Z ->
  exists out,
    enhance_image cv img "guided" false denoise_level params = Ok out
    /\ image_shape h w 3 out
    /\ forall i, (i < 3)%nat ->
         channel i out
         = guided_filter cv (channel i img) (channel i img)
             (get (radius_ (get params no_params)) 2%Z)
             (get (eps_ (get params no_params)) (2 # 10)).
Proof.
  intros shapes Himg Hd. unfold enhance_image.
  set (radius := get (radius_ (get params no_params)) 2%Z).
  set (eps := get (eps_ (get params no_params)) (2 # 10)).
  cbn [String.eqb Ascii.eqb Bool.eqb andb]. cbn [seq for_each].
  set (gf := fun c => guided_filter cv c c radius eps).
  assert (Hgf : forall c, gray_shape h w c -> gray_shape h w (gf c))
    by (intros c Hc; apply (guided_shape shapes radius eps Hc)).
  assert (Hstep : forall i e, (i < 3)%nat -> image_shape h w 3 e ->
            exists out,
              guided_channel cv radius eps e i = Ok out
              /\ image_shape h w 3 out
              /\ channel i out = gf (channel i e)
              /\ forall j, j <> i -> channel j out = channel j e).
  { intros i e Hi He. unfold guided_channel, get_channel.
    rewrite (channels_present h w i e Hi He). simpl bind.
    apply (set_channel_planes h w i e _ Hi He).
    apply Hgf. now apply (channel_shape h w 3). }
  destruct (Hstep 0%nat img) as (e0 & E0 & H0 & C0 & O0); [lia | exact Himg|].
  destruct (Hstep 1%nat e0) as (e1 & E1 & H1 & C1 & O1); [lia | exact H0|].
  destruct (Hstep 2%nat e1) as (e2 & E2 & H2 & C2 & O2); [lia | exact H1|].
  rewrite E0. simpl bind. rewrite E1. simpl bind. rewrite E2. simpl bind.
  replace (0 <? denoise_level)%Z with false
    by (symmetry; apply Z.ltb_ge; exact Hd).
  exists e2. split; [reflexivity|]. split; [exact H2|].
  intros i Hi.
  assert (Ei : i = 0%nat \/ i = 1%nat \/ i = 2%nat) by lia.
  destruct Ei as [-> | [-> | ->]].
  - rewrite (O2 0%nat), (O1 0%nat) by lia. exact C0.
  - rewrite (O2 1%nat) by lia. rewrite C1, (O0 1%nat) by lia. reflexivity.
  - rewrite C2, (O1 2%nat), (O0 2%nat) by lia. reflexivity.
Qed.

Lemma enhance_image_guided_channels_witness :
  exists out,
    enhance_image Toy.cv Toy.img_blob "guided" false 0 None = Ok out
    /\ channel 1 out = channel 1 Toy.img_blob.
Proof.
  destruct (enhance_image_guided_channels Toy.cv 3 3 Toy.img_blob 0 None
              toy_shapes eq_refl) as (out & E & _ & Hc); [lia|].
  exists out. split; [exact E|]. apply (Hc 1%nat). lia.
Defined.
